(** * RobotBase: swerve-drive constants and drive commands

    A shallow embedding of [constants.py], [commands/drive/arcardedrive.py]
    and [commands/drive/fieldrelativedrive.py].

    Python floats are read as real numbers ([R]); [math.pi] is [PI].  The
    preference store of the robot framework is a finite map from key strings
    to reals, and the two [execute] methods run in a small state monad that
    threads the store and records every call that leaves the command. *)

From Stdlib Require Import Reals Lra Lia ZArith List.
From stdpp Require Import gmap strings.

Open Scope R_scope.

(** ** constants.py *)

Module constants.

(** *** Basic units *)

Definition kInchesPerFoot : R := 12.
Definition kCentimetersPerInch : R := 2.54.
Definition kCentimetersPerMeter : R := 100.
Definition kMetersPerInch : R := kCentimetersPerInch / kCentimetersPerMeter.
Definition kMetersPerFoot : R := kMetersPerInch * kInchesPerFoot.
Definition kRadiansPerRevolution : R := 2 * PI.
Definition kDegeersPerRevolution : R := 360.
Definition kRadiansPerDegree : R := kRadiansPerRevolution / kDegeersPerRevolution.
Definition kMillisecondsPerSecond : R := 1000 / 1.
Definition kSecondsPerMinute : R := 60 / 1.
Definition kRPMPerAngularVelocity : R :=
  (1 / kRadiansPerRevolution) * kSecondsPerMinute.

(** *** Robot physical parameters *)

(** [wpimath.geometry.Translation2d]: a point of the plane, in meters. *)
Record Translation2d : Type := mkTranslation2d { X : R; Y : R }.

Definition kSwerveModuleCenterToRobotCenterWidth : R := 10.375 * kMetersPerInch.
Definition kSwerveModuleCenterToRobotCenterLength : R := 9.375 * kMetersPerInch.

(** [pow(pow(w, 2) + pow(l, 2), 0.5)]: the outer [pow] has a float exponent
    and is the real power function. *)
Definition kSwerveModuleDistanceFromRobotCenter : R :=
  Rpower (kSwerveModuleCenterToRobotCenterWidth ^ 2
          + kSwerveModuleCenterToRobotCenterLength ^ 2) 0.5.

Definition kFrontLeftWheelPosition : Translation2d :=
  mkTranslation2d kSwerveModuleCenterToRobotCenterLength
                  kSwerveModuleCenterToRobotCenterWidth.

Definition kFrontRightWheelPosition : Translation2d :=
  mkTranslation2d kSwerveModuleCenterToRobotCenterLength
                  (- kSwerveModuleCenterToRobotCenterWidth).

Definition kBackLeftWheelPosition : Translation2d :=
  mkTranslation2d (- kSwerveModuleCenterToRobotCenterLength)
                  kSwerveModuleCenterToRobotCenterWidth.

Definition kBackRightWheelPosition : Translation2d :=
  mkTranslation2d (- kSwerveModuleCenterToRobotCenterLength)
                  (- kSwerveModuleCenterToRobotCenterWidth).

Definition kWheelDiameter : R := 4 * kMetersPerInch.
Definition kWheelRadius : R := kWheelDiameter / 2.
Definition kWheelCircumference : R := kWheelRadius * 2 * PI.
Definition kWheelDistancePerRevolution : R := kWheelCircumference.
Definition kWheelDistancePerRadian : R :=
  kWheelDistancePerRevolution / kRadiansPerRevolution.

Definition kDriveGearingRatio : R := (50 / 14) * (16 / 28) * (45 / 15).
Definition kSteerGearingRatio : R := 150 / 7.

Section MotorLimits.

(** [DCMotor.krakenX60().freeSpeed] comes from the robot framework, not
    from this repository: the limits below are functions of it. *)
Variable freeSpeed : R.

Definition kMaxMotorAngularVelocity : R := freeSpeed.
Definition kMaxWheelAngularVelocity : R :=
  kMaxMotorAngularVelocity / kDriveGearingRatio.
Definition kMaxWheelLinearVelocity : R :=
  kWheelDistancePerRadian * kMaxWheelAngularVelocity.
Definition kMaxSteerAngularVelocity : R :=
  kMaxMotorAngularVelocity / kSteerGearingRatio.
Definition kMaxForwardLinearVelocity : R := kMaxWheelLinearVelocity.
Definition kMaxSidewaysLinearVelocity : R := kMaxWheelLinearVelocity.
Definition kMaxRotationAngularVelocity : R :=
  kMaxWheelLinearVelocity / kSwerveModuleDistanceFromRobotCenter.

End MotorLimits.

Definition kMinWheelLinearVelocity : R := 0.002.

Definition kDriveAngularVelocityCoeff : R := 0.04.

(** *** Encoders *)

Definition kCANcoderPulsesPerRevolution : R := 4096.
Definition kCANcoderPulsesPerRadian : R :=
  kCANcoderPulsesPerRevolution / kRadiansPerRevolution.
Definition kTalonEncoderPulsesPerRevolution : R := 2048.
Definition kTalonEncoderPulsesPerRadian : R :=
  kTalonEncoderPulsesPerRevolution / kRadiansPerRevolution.
Definition kDriveEncoderPulsesPerRevolution : R := kTalonEncoderPulsesPerRevolution.
Definition kDriveEncoderPulsesPerRadian : R :=
  kDriveEncoderPulsesPerRevolution / kRadiansPerRevolution.
Definition kDriveEncoderPulsesPerMeter : R :=
  kDriveEncoderPulsesPerRadian / kWheelDistancePerRadian.
Definition kWheelEncoderPulsesPerRevolution : R :=
  kDriveEncoderPulsesPerRevolution * kDriveGearingRatio.
Definition kWheelEncoderPulsesPerRadian : R :=
  kWheelEncoderPulsesPerRevolution / kRadiansPerRevolution.
Definition kWheelEncoderPulsesPerMeter : R :=
  kWheelEncoderPulsesPerRadian / kWheelDistancePerRadian.
Definition kSteerEncoderPulsesPerRevolution : R := kTalonEncoderPulsesPerRevolution.
Definition kSteerEncoderPulsesPerRadian : R :=
  kSteerEncoderPulsesPerRevolution / kRadiansPerRevolution.
Definition kSwerveEncoderPulsesPerRevolution : R :=
  kSteerEncoderPulsesPerRevolution * kSteerGearingRatio.
Definition kSwerveEncoderPulsesPerRadian : R :=
  kSwerveEncoderPulsesPerRevolution / kRadiansPerRevolution.

(** *** CTRE *)

Definition k100MillisecondsPerSecond : R := 10 / 1.
Definition kTalonVelocityPerRPM : R :=
  (kTalonEncoderPulsesPerRevolution / kSecondsPerMinute) / k100MillisecondsPerSecond.
Definition kTalonVelocityPerAngularVelocity : R :=
  kTalonVelocityPerRPM * kRPMPerAngularVelocity.

(** *** Absolute encoder offsets; every one of them is documented
    ["rotations"] in the source. *)

Definition kFrontLeftAbsoluteEncoderOffset : R := 256.113 / kRadiansPerDegree.
Definition kFrontRightAbsoluteEncoderOffset : R := 125.420 / kDegeersPerRevolution.
Definition kBackLeftAbsoluteEncoderOffset : R := 341.719 / kDegeersPerRevolution.
Definition kBackRightAbsoluteEncoderOffset : R := 331.260 / kDegeersPerRevolution.

Definition kRobotUpdatePeriod : R := 1 / 50.

(** *** Field and frame dimensions *)

Definition kFieldLength : R := 54 * kMetersPerFoot + 3.25 * kMetersPerInch.
Definition kFieldWidth : R := 26 * kMetersPerFoot + 3.5 * kMetersPerInch.
Definition kRobotWidth : R := 26 * kMetersPerInch.
Definition kRobotLength : R := 24 * kMetersPerInch.

(** *** Acceleration limits, again functions of the motor free speed *)

Definition kMaxWheelLinearAcceleration (freeSpeed : R) : R :=
  kMaxWheelLinearVelocity freeSpeed / 1.
Definition kMaxForwardLinearAcceleration (freeSpeed : R) : R :=
  kMaxWheelLinearAcceleration freeSpeed.
Definition kMaxSidewaysLinearAcceleration (freeSpeed : R) : R :=
  kMaxWheelLinearAcceleration freeSpeed.
Definition kMaxRotationAngularAcceleration (freeSpeed : R) : R :=
  kMaxRotationAngularVelocity freeSpeed / 0.5.

(** *** CAN ids *)

Definition kFrontLeftDriveMotorId : Z := 10.
Definition kFrontLeftSteerMotorId : Z := 11.
Definition kFrontRightDriveMotorId : Z := 12.
Definition kFrontRightSteerMotorId : Z := 13.
Definition kBackLeftDriveMotorId : Z := 14.
Definition kBackLeftSteerMotorId : Z := 15.
Definition kBackRightDriveMotorId : Z := 16.
Definition kBackRightSteerMotorId : Z := 17.

Definition kPigeonCANId : Z := 44.

Definition kFrontLeftSteerEncoderId : Z := 40.
Definition kFrontRightSteerEncoderId : Z := 41.
Definition kBackLeftSteerEncoderId : Z := 42.
Definition kBackRightSteerEncoderId : Z := 43.

Definition kCANdleID : Z := 2.
Definition kPDHCanID : Z := 1.
Definition kVelocityControlCANId : Z := 3.

(** *** AprilTag positions *)

(** [wpimath.geometry.Rotation3d(roll, pitch, yaw)], kept as the three
    angles it is built from; [Rotation3d()] is the zero rotation. *)
Record Rotation3d : Type := mkRotation3d { roll : R; pitch : R; yaw : R }.

Definition Rotation3d_zero : Rotation3d := mkRotation3d 0 0 0.

(** [wpimath.geometry.Pose3d(x, y, z, rotation)]. *)
Record Pose3d : Type :=
  mkPose3d { pose_x : R; pose_y : R; pose_z : R; pose_rotation : Rotation3d }.

(** The dict literal, keyed by the tag number. *)
Definition kApriltagPositionDict : gmap Z Pose3d :=
  <[1%Z := mkPose3d (kMetersPerInch * 610.77) (kMetersPerInch * 42.19)
             (kMetersPerInch * 18.22) (mkRotation3d 0.0 0.0 PI)]>
 (<[2%Z := mkPose3d (kMetersPerInch * 610.77) (kMetersPerInch * 108.19)
             (kMetersPerInch * 18.22) (mkRotation3d 0.0 0.0 PI)]>
 (<[3%Z := mkPose3d (kMetersPerInch * 610.77) (kMetersPerInch * 174.19)
             (kMetersPerInch * 18.22) (mkRotation3d 0.0 0.0 PI)]>
 (<[4%Z := mkPose3d (kMetersPerInch * 636.96) (kMetersPerInch * 265.74)
             (kMetersPerInch * 27.38) (mkRotation3d 0.0 0.0 PI)]>
 (<[5%Z := mkPose3d (kMetersPerInch * 14.25) (kMetersPerInch * 265.74)
             (kMetersPerInch * 27.38) Rotation3d_zero]>
 (<[6%Z := mkPose3d (kMetersPerInch * 40.45) (kMetersPerInch * 174.19)
             (kMetersPerInch * 18.22) Rotation3d_zero]>
 (<[7%Z := mkPose3d (kMetersPerInch * 40.45) (kMetersPerInch * 108.19)
             (kMetersPerInch * 18.22) Rotation3d_zero]>
 (<[8%Z := mkPose3d (kMetersPerInch * 40.45) (kMetersPerInch * 42.19)
             (kMetersPerInch * 18.22) Rotation3d_zero]> ∅))))))).

(** *** Autonomous and trajectory following *)

Definition kAutoDriveDistance : R := -8 * kWheelCircumference.

Definition kTrajectoryPositionPGain : R := 8.
Definition kTrajectoryPositionIGain : R := 0.
Definition kTrajectoryPositionDGain : R := 0.
Definition kTrajectoryAnglePGain : R := 8.
Definition kTrajectoryAngleIGain : R := 0.
Definition kTrajectoryAngleDGain : R := 0.

(** [pathplannerlib.config.PIDConstants(kP, kI, kD)]. *)
Record PIDConstants : Type := mkPIDConstants { kP : R; kI : R; kD : R }.

(** [pathplannerlib.config.HolonomicPathFollowerConfig], with the four
    arguments the source computes; the fifth is the library's default
    [ReplanningConfig()]. *)
Record HolonomicPathFollowerConfig : Type := mkHolonomicPathFollowerConfig {
  translationConstants : PIDConstants;
  rotationConstants : PIDConstants;
  maxModuleSpeed : R;
  driveBaseRadius : R }.

(** [kFrontLeftWheelPosition.norm()] is written out: the hypotenuse of the
    two coordinates. *)
Definition kPathFollowingConfig (freeSpeed : R) : HolonomicPathFollowerConfig :=
  mkHolonomicPathFollowerConfig
    (mkPIDConstants kTrajectoryPositionPGain kTrajectoryPositionIGain
                    kTrajectoryPositionDGain)
    (mkPIDConstants kTrajectoryAnglePGain kTrajectoryAngleIGain
                    kTrajectoryAngleDGain)
    (kMaxForwardLinearVelocity freeSpeed)
    (sqrt (X kFrontLeftWheelPosition ^ 2 + Y kFrontLeftWheelPosition ^ 2)).

End constants.

Import constants.

(** ** Plane geometry of the mount points *)

(** The z component of the cross product of two plane vectors. *)
Definition cross (p q : Translation2d) : R := X p * Y q - Y p * X q.

(** Two points are colinear through the robot center (the origin) when the
    origin and the two points lie on one line. *)
Definition colinear_through_center (p q : Translation2d) : Prop :=
  cross p q = 0.

(** [Translation2d.norm]. *)
Definition norm (p : Translation2d) : R := sqrt (X p ^ 2 + Y p ^ 2).

Definition dot (p q : Translation2d) : R := X p * X q + Y p * Y q.

(** The four mount points, in the fixed order front-left, front-right,
    back-left, back-right. *)
Record Quad (A : Type) : Type := mkQuad { fl : A; fr : A; bl : A; br : A }.
Arguments mkQuad {A} _ _ _ _.
Arguments fl {A} _.
Arguments fr {A} _.
Arguments bl {A} _.
Arguments br {A} _.

Definition qmap {A B : Type} (f : A -> B) (q : Quad A) : Quad B :=
  mkQuad (f (fl q)) (f (fr q)) (f (bl q)) (f (br q)).


Definition qlist {A : Type} (q : Quad A) : list A := [fl q; fr q; bl q; br q].

Definition mountPoints : Quad Translation2d :=
  mkQuad kFrontLeftWheelPosition kFrontRightWheelPosition
         kBackLeftWheelPosition kBackRightWheelPosition.

(** ** Unit conversion *)

Module UnitConversion.

(** Modelled from the spec: the conversion functions of the UnitConversion
    component are not in the repository, only their scale factors are (in
    [constants.py]).  Each conversion is a linear scale by a factor. *)
Definition convert (factor x : R) : R := x * factor.

(** Modelled from the spec: the inverse conversion divides by the factor. *)
Definition invert (factor y : R) : R := y / factor.

(** The scale factors among the drive and steer encoder constants. *)
Definition encoderFactors : list R :=
  [ kDriveEncoderPulsesPerRadian; kDriveEncoderPulsesPerMeter;
    kWheelEncoderPulsesPerMeter; kSteerEncoderPulsesPerRadian;
    kSwerveEncoderPulsesPerRadian ].

End UnitConversion.

(** ** Angles *)

Instance Rlt_decision (x y : R) : Decision (x < y) := Rlt_dec x y.
Instance Rle_decision (x y : R) : Decision (x <= y) := Rle_dec x y.
Instance Req_decision : EqDecision R := Req_dec_T.

(** The representative of an angle in the interval (-PI, PI]. *)
Definition wrap (a : R) : R :=
  PI - 2 * PI * frac_part ((PI - a) / (2 * PI)).

(** [math.hypot]. *)
Definition hypot (a b : R) : R := sqrt (a ^ 2 + b ^ 2).

(** [math.atan2 y x], the angle of the vector (x, y), in (-PI, PI]. *)
Definition atan2 (y x : R) : R :=
  if decide (0 < x) then atan (y / x)
  else if decide (x < 0) then
    if decide (0 <= y) then atan (y / x) + PI else atan (y / x) - PI
  else if decide (0 < y) then PI / 2
  else if decide (y < 0) then - (PI / 2)
  else 0.

(** ** Swerve data model *)

(** [DriveSubsystem.CoordinateMode]: the two modes the commands use. *)
Inductive CoordinateMode : Type := RobotRelative | FieldRelative.

Record ModuleState : Type := mkModuleState { speed : R; angle : R }.

Record ChassisVelocityCommand : Type := mkCommand {
  forward : R; sideways : R; rotation : R; mode : CoordinateMode }.

(** ** SwerveModuleController *)

Module SwerveModuleController.

(** Modelled from the spec: the angular distance between two angles is the
    magnitude of their difference wrapped to (-PI, PI]. *)
Definition angularDistance (currentAngle targetAngle : R) : R :=
  Rabs (wrap (targetAngle - currentAngle)).

(** Modelled from the spec: step 1 of [setTarget], which is not in the
    repository.  When the angular distance from the current angle to the
    target angle exceeds PI/2 the speed sign is flipped and the angle is
    rotated by PI; otherwise (a distance of exactly PI/2 included) the target
    is left as it is. *)
Definition optimize (currentAngle : R) (target : ModuleState) : ModuleState :=
  if decide (PI / 2 < angularDistance currentAngle (angle target))
  then mkModuleState (- speed target) (angle target + PI)
  else target.

End SwerveModuleController.

(** ** SwerveKinematics *)

Module SwerveKinematics.

(** Modelled from the spec: the velocity vector required of the module at
    mount point [p]: chassis translation plus the tangential velocity of the
    chassis rotation. *)
Definition moduleVelocity (fwd side rot : R) (p : Translation2d) : R * R :=
  (fwd - rot * Y p, side + rot * X p).

(** Modelled from the spec: speed and angle of one module. *)
Definition toModuleState (fwd side rot : R) (p : Translation2d) : ModuleState :=
  let v := moduleVelocity fwd side rot p in
  mkModuleState (hypot (fst v) (snd v)) (atan2 (snd v) (fst v)).

(** Modelled from the spec: in field-relative mode the translation is rotated
    by the negative of the robot heading; robot-relative passes through. *)
Definition toRobotFrame (heading : R) (cmd : ChassisVelocityCommand) : R * R :=
  match mode cmd with
  | RobotRelative => (forward cmd, sideways cmd)
  | FieldRelative =>
      (forward cmd * cos heading + sideways cmd * sin heading,
       - forward cmd * sin heading + sideways cmd * cos heading)
  end.

(** Modelled from the spec: when translation and rotation are commanded
    together, the compensation coefficient is added to the rotation. *)
Definition compensate (fwd side rot : R) : R :=
  if decide ((fwd <> 0 \/ side <> 0) /\ rot <> 0)
  then rot + kDriveAngularVelocityCoeff
  else rot.

(** Modelled from the spec: [toModuleStates], which is not in the repository.
    [heading] comes from the orientation source and [held] are the angles of
    the previous command, kept when all four speeds are below the minimum. *)
Definition toModuleStates (heading : R) (held : Quad R)
    (cmd : ChassisVelocityCommand) : Quad ModuleState :=
  let t := toRobotFrame heading cmd in
  let rot := compensate (fst t) (snd t) (rotation cmd) in
  let raw := qmap (toModuleState (fst t) (snd t) rot) mountPoints in
  if decide (Forall (fun s => speed s < kMinWheelLinearVelocity) (qlist raw))
  then qmap (mkModuleState 0) held
  else raw.

End SwerveKinematics.

(** ** DriveCoordinator *)

Module DriveCoordinator.

(** Modelled from the spec: a value beyond the maximum magnitude is clamped
    to it. *)
Definition clamp (limit x : R) : R :=
  if decide (limit < x) then limit
  else if decide (x < - limit) then - limit
  else x.


Section Drive.

(** The free speed of the drive motor and the configured deadband. *)
Variables (freeSpeed threshold : R).



End Drive.

End DriveCoordinator.

(** ** The command layer: preferences, joysticks and the drive subsystem *)

Module commands.

Inductive Axis : Type := AxisForward | AxisSideways | AxisRotation.

(** What a command does to the outside: it polls a joystick function, uses
    the preference store, or hands a request to the drive subsystem. *)
Inductive Event : Type :=
| Polled (a : Axis)
| PrefInit (key : string) (default : R)
| PrefGet (key : string)
| ArcadeDriveWithFactors (fwd side rot : R) (m : CoordinateMode).

(** The state a command runs in: the preference store and the log of
    events so far, oldest first. *)
Record World : Type := mkWorld { prefs : gmap string R; trace : list Event }.

(** A state monad over [World]. *)
Definition M (A : Type) : Type := World -> A * World.

Instance M_ret : MRet M := fun A a w => (a, w).

Instance M_bind : MBind M :=
  fun A B k m w => let (a, w') := m w in k a w'.

Definition emit (e : Event) : M unit :=
  fun w => (tt, mkWorld (prefs w) (trace w ++ [e])).

(** [wpilib.Preferences.initFloat(key, value)]: puts the value only if the
    key holds none. *)
Definition initFloat (key : string) (value : R) : M unit :=
  fun w =>
    let store := match prefs w !! key with
                 | Some _ => prefs w
                 | None => <[key := value]> (prefs w)
                 end in
    (tt, mkWorld store (trace w ++ [PrefInit key value])).

(** [wpilib.Preferences.getFloat(key, defaultValue)]: the stored value, or
    the default when the key holds none. *)
Definition getFloat (key : string) (defaultValue : R) : M R :=
  fun w =>
    (default defaultValue (prefs w !! key),
     mkWorld (prefs w) (trace w ++ [PrefGet key])).

(** The framework declares [getFloat(key, defaultValue=0.0)]: this is the
    default a call with the key alone falls back to. *)
Definition getFloat_defaultValue : R := 0.

(** [typing.Callable[[], float]]: a joystick axis as it answers at one poll.
    One [execute] polls each axis once; between cycles the answer may
    change, which [cycles] below accounts for. *)
Definition Callable : Type := unit -> R.

Definition call (a : Axis) (f : Callable) : M R :=
  emit (Polled a) ;; mret (f tt).

(** [DriveSubsystem.arcadeDriveWithFactors], a call into the subsystem. *)
Definition arcadeDriveWithFactors (fwd side rot : R) (m : CoordinateMode) : M unit :=
  emit (ArcadeDriveWithFactors fwd side rot m).

Definition kSensitivityKey : string := "Robot Relative Sensitivity".

(** *** arcardedrive.py *)

Module ArcadeDrive.

Record t : Type := mk { forward : Callable; rotation : Callable }.

(** [__init__]: of its calls only [Preferences.initFloat] touches the
    preference store; naming the command and registering the subsystem
    stay inside the framework. *)
Definition init (forward rotation : Callable) : M t :=
  initFloat kSensitivityKey 0.2 ;;
  mret (mk forward rotation).

(** [execute]: the arguments are evaluated left to right, the joystick
    before the preference. *)
Definition execute (self : t) : M unit :=
  f ← call AxisForward (forward self) ;
  r ← call AxisRotation (rotation self) ;
  k ← getFloat kSensitivityKey 0.2 ;
  arcadeDriveWithFactors f 0 (r * k) RobotRelative.

End ArcadeDrive.

(** *** fieldrelativedrive.py *)

Module FieldRelativeDrive.

Record t : Type :=
  mk { forward : Callable; sideways : Callable; rotation : Callable }.

(** [__init__], as for the arcade command but with the default 0.4. *)
Definition init (forward sideways rotation : Callable) : M t :=
  initFloat kSensitivityKey 0.4 ;;
  mret (mk forward sideways rotation).

(** [execute]: [getFloat] is called with the key alone. *)
Definition execute (self : t) : M unit :=
  f ← call AxisForward (forward self) ;
  s ← call AxisSideways (sideways self) ;
  r ← call AxisRotation (rotation self) ;
  k ← getFloat kSensitivityKey getFloat_defaultValue ;
  arcadeDriveWithFactors f s (r * k) FieldRelative.

End FieldRelativeDrive.

(** The events a computation adds to the log. *)
Definition emitted {A : Type} (m : M A) (w : World) : list Event :=
  drop (length (trace w)) (trace (snd (m w))).

Definition isPrefGet (key : string) (e : Event) : bool :=
  match e with
  | PrefGet k => bool_decide (k = key)
  | _ => false
  end.

(** How often the key is read from the store in a log. *)
Definition reads (key : string) (l : list Event) : nat :=
  length (filter (fun e => isPrefGet key e = true) l).

(** The requests to the drive subsystem in a log. *)
Fixpoint driveCalls (l : list Event) : list (R * R * R * CoordinateMode) :=
  match l with
  | [] => []
  | ArcadeDriveWithFactors f s r m :: l' => (f, s, r, m) :: driveCalls l'
  | _ :: l' => driveCalls l'
  end.

(** Robot set-up constructs both commands, in one order or the other. *)
Definition constructArcadeFirst (fa ra ff sf rf : Callable)
  : M (ArcadeDrive.t * FieldRelativeDrive.t) :=
  a ← ArcadeDrive.init fa ra ;
  f ← FieldRelativeDrive.init ff sf rf ;
  mret (a, f).

Definition constructFieldRelativeFirst (fa ra ff sf rf : Callable)
  : M (ArcadeDrive.t * FieldRelativeDrive.t) :=
  f ← FieldRelativeDrive.init ff sf rf ;
  a ← ArcadeDrive.init fa ra ;
  mret (a, f).

Instance Axis_eq_dec : EqDecision Axis.
Proof. solve_decision. Defined.

Definition isPolled (a : Axis) (e : Event) : bool :=
  match e with
  | Polled b => bool_decide (a = b)
  | _ => false
  end.

(** How often an axis is polled in a log. *)
Definition polls (a : Axis) (l : list Event) : nat :=
  length (filter (fun e => isPolled a e = true) l).

(** The scheduler runs [execute] once per cycle, and the joystick functions
    answer afresh in every cycle.  A run over several cycles therefore takes
    the command as it stands in each cycle, its joystick functions answering
    as they do then, one after the other. *)
Fixpoint cycles {T : Type} (execute : T -> M unit) (selves : list T) : M unit :=
  match selves with
  | [] => mret tt
  | self :: rest => execute self ;; cycles execute rest
  end.

End commands.

(** The property the spec asks of the mount points: no two of the four are
    colinear through the robot center. *)
Definition non_degenerate (q : Quad Translation2d) : Prop :=
  ~ colinear_through_center (fl q) (fr q) /\
  ~ colinear_through_center (fl q) (bl q) /\
  ~ colinear_through_center (fl q) (br q) /\
  ~ colinear_through_center (fr q) (bl q) /\
  ~ colinear_through_center (fr q) (br q) /\
  ~ colinear_through_center (bl q) (br q).


(** Every CAN id the constants give out. *)
Definition canIds : list Z :=
  [ kFrontLeftDriveMotorId; kFrontLeftSteerMotorId;
    kFrontRightDriveMotorId; kFrontRightSteerMotorId;
    kBackLeftDriveMotorId; kBackLeftSteerMotorId;
    kBackRightDriveMotorId; kBackRightSteerMotorId;
    kFrontLeftSteerEncoderId; kFrontRightSteerEncoderId;
    kBackLeftSteerEncoderId; kBackRightSteerEncoderId;
    kPigeonCANId; kCANdleID; kPDHCanID; kVelocityControlCANId ].


(** * Properties *)

(** ** Values of the constants *)

(** Decimal literals are rationals injected into [R]; [field] wants them as
    quotients of integers. *)
Ltac decimals := unfold Q2R in *; cbn [QArith_base.Qnum QArith_base.Qden] in *.

Ltac unfold_units :=
  unfold kMetersPerFoot, kMetersPerInch, kCentimetersPerInch,
    kCentimetersPerMeter, kInchesPerFoot in *.

Ltac unfold_geometry :=
  unfold kSwerveModuleCenterToRobotCenterLength,
    kSwerveModuleCenterToRobotCenterWidth in *; unfold_units.

Ltac unfold_wheel :=
  unfold kWheelDistancePerRadian, kWheelDistancePerRevolution,
    kWheelCircumference, kWheelRadius, kWheelDiameter,
    kRadiansPerRevolution in *; unfold_units.

Ltac unfold_encoders :=
  unfold kDriveEncoderPulsesPerMeter, kWheelEncoderPulsesPerMeter,
    kWheelEncoderPulsesPerRadian, kWheelEncoderPulsesPerRevolution,
    kDriveEncoderPulsesPerRadian, kDriveEncoderPulsesPerRevolution,
    kSwerveEncoderPulsesPerRadian, kSwerveEncoderPulsesPerRevolution,
    kSteerEncoderPulsesPerRadian, kSteerEncoderPulsesPerRevolution,
    kTalonEncoderPulsesPerRevolution, kDriveGearingRatio,
    kSteerGearingRatio in *; unfold_wheel.

Lemma PI_neq0 : PI <> 0.
Proof. pose proof PI_RGT_0. lra. Qed.

Lemma PI_gt_3 : 3 < PI.
Proof. pose proof PI2_3_2. lra. Qed.

Lemma lt_div_r (a b c : R) : 0 < c -> a * c < b -> a < b / c.
Proof.
  intros Hc H. apply (Rmult_lt_reg_r c); [exact Hc |].
  unfold Rdiv. rewrite Rmult_assoc, Rinv_l by lra. lra.
Qed.

Lemma lt_div_l (a b c : R) : 0 < c -> a < b * c -> a / c < b.
Proof.
  intros Hc H. apply (Rmult_lt_reg_r c); [exact Hc |].
  unfold Rdiv. rewrite Rmult_assoc, Rinv_l by lra. lra.
Qed.

Lemma lt_div_r_neg (a b c : R) : c < 0 -> b < a * c -> a < b / c.
Proof.
  intros Hc H. replace (b / c) with ((- b) / (- c)) by (field; lra).
  apply lt_div_r; lra.
Qed.

Lemma lt_div_l_neg (a b c : R) : c < 0 -> b * c < a -> a / c < b.
Proof.
  intros Hc H. replace (a / c) with ((- a) / (- c)) by (field; lra).
  apply lt_div_l; lra.
Qed.

Lemma length_value : kSwerveModuleCenterToRobotCenterLength = 0.238125.
Proof. unfold_geometry. lra. Qed.

Lemma width_value : kSwerveModuleCenterToRobotCenterWidth = 0.263525.
Proof. unfold_geometry. lra. Qed.

Lemma kWheelDistancePerRadian_value : kWheelDistancePerRadian = 0.0508.
Proof. unfold_wheel. pose proof PI_neq0. decimals. field. lra. Qed.

Lemma kDriveGearingRatio_value : kDriveGearingRatio = 300 / 49.
Proof. unfold kDriveGearingRatio. lra. Qed.

(** ** Mount points *)

(** C1, as stated, fails: the front-left and the back-right mount points are
    reflections of each other through the robot center, hence colinear
    through it. *)
Lemma mountPoints_diagonal_colinear : ~ non_degenerate mountPoints.
Proof.
  intros (_ & _ & H & _). apply H.
  unfold colinear_through_center, cross. cbn. lra.
Qed.

(** The planar kinematics map is injective on the configured geometry: a
    chassis velocity is determined by the module velocities it asks for. *)
Lemma moduleVelocity_injective (f s w f' s' w' : R) :
  qmap (SwerveKinematics.moduleVelocity f s w) mountPoints
  = qmap (SwerveKinematics.moduleVelocity f' s' w') mountPoints ->
  f = f' /\ s = s' /\ w = w'.
Proof.
  unfold qmap, SwerveKinematics.moduleVelocity. cbn.
  rewrite length_value, width_value.
  intros H. injection H as H1 H2 H3 H4 H5 H6 H7 H8.
  repeat split; lra.
Qed.

(** C1 (amended): no two adjacent mount points are colinear through the
    robot center and none of the four is the center, while each diagonal
    pair (front-left/back-right, front-right/back-left) is colinear through
    the center, one point being the reflection of the other. *)
Theorem mountPoints_adjacent_non_colinear :
  (~ colinear_through_center kFrontLeftWheelPosition kFrontRightWheelPosition /\
   ~ colinear_through_center kFrontLeftWheelPosition kBackLeftWheelPosition /\
   ~ colinear_through_center kFrontRightWheelPosition kBackRightWheelPosition /\
   ~ colinear_through_center kBackLeftWheelPosition kBackRightWheelPosition) /\
  Forall (fun p => p <> mkTranslation2d 0 0) (qlist mountPoints) /\
  (colinear_through_center kFrontLeftWheelPosition kBackRightWheelPosition /\
   kBackRightWheelPosition
   = mkTranslation2d (- X kFrontLeftWheelPosition) (- Y kFrontLeftWheelPosition)) /\
  (colinear_through_center kFrontRightWheelPosition kBackLeftWheelPosition /\
   kBackLeftWheelPosition
   = mkTranslation2d (- X kFrontRightWheelPosition) (- Y kFrontRightWheelPosition)).
Proof.
  unfold colinear_through_center, cross, qlist, mountPoints,
    kFrontLeftWheelPosition, kFrontRightWheelPosition,
    kBackLeftWheelPosition, kBackRightWheelPosition. cbn.
  rewrite length_value, width_value.
  repeat split; try lra.
  - repeat constructor; intros H; injection H as H1 H2; lra.
  - f_equal; lra.
Qed.

(** ** Unit-conversion factors *)

Lemma kRadiansPerRevolution_pos : 0 < kRadiansPerRevolution.
Proof. unfold kRadiansPerRevolution. pose proof PI_RGT_0. lra. Qed.

Lemma kWheelDistancePerRadian_pos : 0 < kWheelDistancePerRadian.
Proof. rewrite kWheelDistancePerRadian_value. lra. Qed.

Lemma kDriveEncoderPulsesPerRadian_pos : 0 < kDriveEncoderPulsesPerRadian.
Proof.
  unfold kDriveEncoderPulsesPerRadian, kDriveEncoderPulsesPerRevolution,
    kTalonEncoderPulsesPerRevolution.
  apply Rdiv_lt_0_compat; [lra | apply kRadiansPerRevolution_pos].
Qed.

Lemma kSteerEncoderPulsesPerRadian_pos : 0 < kSteerEncoderPulsesPerRadian.
Proof. exact kDriveEncoderPulsesPerRadian_pos. Qed.

Lemma kDriveEncoderPulsesPerMeter_pos : 0 < kDriveEncoderPulsesPerMeter.
Proof.
  unfold kDriveEncoderPulsesPerMeter.
  apply Rdiv_lt_0_compat;
    [apply kDriveEncoderPulsesPerRadian_pos | apply kWheelDistancePerRadian_pos].
Qed.

Lemma kWheelEncoderPulsesPerRadian_eq :
  kWheelEncoderPulsesPerRadian = kDriveEncoderPulsesPerRadian * kDriveGearingRatio.
Proof.
  unfold kWheelEncoderPulsesPerRadian, kWheelEncoderPulsesPerRevolution,
    kDriveEncoderPulsesPerRadian.
  pose proof kRadiansPerRevolution_pos. field. lra.
Qed.

Lemma kWheelEncoderPulsesPerMeter_eq :
  kWheelEncoderPulsesPerMeter = kDriveEncoderPulsesPerMeter * kDriveGearingRatio.
Proof.
  unfold kWheelEncoderPulsesPerMeter, kDriveEncoderPulsesPerMeter.
  rewrite kWheelEncoderPulsesPerRadian_eq.
  pose proof kWheelDistancePerRadian_pos. field. lra.
Qed.

Lemma kWheelEncoderPulsesPerMeter_pos : 0 < kWheelEncoderPulsesPerMeter.
Proof.
  rewrite kWheelEncoderPulsesPerMeter_eq, kDriveGearingRatio_value.
  pose proof kDriveEncoderPulsesPerMeter_pos. lra.
Qed.

Lemma kSwerveEncoderPulsesPerRadian_eq :
  kSwerveEncoderPulsesPerRadian = kSteerEncoderPulsesPerRadian * kSteerGearingRatio.
Proof.
  unfold kSwerveEncoderPulsesPerRadian, kSwerveEncoderPulsesPerRevolution,
    kSteerEncoderPulsesPerRadian.
  pose proof kRadiansPerRevolution_pos. field. lra.
Qed.

Lemma kSwerveEncoderPulsesPerRadian_pos : 0 < kSwerveEncoderPulsesPerRadian.
Proof.
  rewrite kSwerveEncoderPulsesPerRadian_eq. unfold kSteerGearingRatio.
  pose proof kSteerEncoderPulsesPerRadian_pos. lra.
Qed.

(** C4: the drive pulses-per-meter factor is the pulses-per-radian factor
    divided by the meters-per-radian factor; the divisor is not zero, so the
    factor times meters per radian gives back pulses per radian; in terms of
    the encoder resolution and the wheel radius it is 2048 / (2 PI * 0.0508);
    and the wheel-side and swerve-side factors are the motor-side ones scaled
    by the gearing ratios. *)
Theorem kDriveEncoderPulsesPerMeter_derivation :
  kDriveEncoderPulsesPerMeter = kDriveEncoderPulsesPerRadian / kWheelDistancePerRadian /\
  kWheelDistancePerRadian <> 0 /\
  kDriveEncoderPulsesPerMeter * kWheelDistancePerRadian = kDriveEncoderPulsesPerRadian /\
  kDriveEncoderPulsesPerMeter
  = kDriveEncoderPulsesPerRevolution / (2 * PI * kWheelRadius) /\
  kWheelRadius = 0.0508 /\
  kWheelEncoderPulsesPerMeter = kDriveEncoderPulsesPerMeter * kDriveGearingRatio /\
  kSwerveEncoderPulsesPerRadian = kSteerEncoderPulsesPerRadian * kSteerGearingRatio.
Proof.
  pose proof kWheelDistancePerRadian_pos as Hw.
  pose proof PI_neq0 as Hpi.
  assert (Hr : kWheelRadius = 0.0508) by (unfold_wheel; lra).
  assert (Hd : kWheelDistancePerRadian = kWheelRadius)
    by (rewrite Hr; apply kWheelDistancePerRadian_value).
  repeat split.
  - lra.
  - unfold kDriveEncoderPulsesPerMeter. field. lra.
  - unfold kDriveEncoderPulsesPerMeter, kDriveEncoderPulsesPerRadian,
      kRadiansPerRevolution.
    rewrite Hd, Hr. decimals. field. lra.
  - exact Hr.
  - apply kWheelEncoderPulsesPerMeter_eq.
  - apply kSwerveEncoderPulsesPerRadian_eq.
Qed.

(** A conversion by a factor that is not zero is undone by its inverse. *)
Lemma invert_convert (factor x : R) :
  factor <> 0 -> UnitConversion.invert factor (UnitConversion.convert factor x) = x.
Proof. intros H. unfold UnitConversion.invert, UnitConversion.convert. field. exact H. Qed.

Lemma convert_invert (factor y : R) :
  factor <> 0 -> UnitConversion.convert factor (UnitConversion.invert factor y) = y.
Proof. intros H. unfold UnitConversion.invert, UnitConversion.convert. field. exact H. Qed.

(** C5: each of the five drive and steer encoder scale factors is not zero,
    and over the reals converting by it and then inverting gives back the
    input exactly (and the other way round). *)
Theorem encoder_conversions_invertible :
  Forall (fun factor =>
            factor <> 0 /\
            (forall x, UnitConversion.invert factor (UnitConversion.convert factor x) = x) /\
            (forall y, UnitConversion.convert factor (UnitConversion.invert factor y) = y))
         UnitConversion.encoderFactors.
Proof.
  assert (Hall : Forall (fun factor => 0 < factor) UnitConversion.encoderFactors).
  { unfold UnitConversion.encoderFactors.
    repeat constructor.
    - apply kDriveEncoderPulsesPerRadian_pos.
    - apply kDriveEncoderPulsesPerMeter_pos.
    - apply kWheelEncoderPulsesPerMeter_pos.
    - apply kSteerEncoderPulsesPerRadian_pos.
    - apply kSwerveEncoderPulsesPerRadian_pos. }
  eapply Forall_impl; [exact Hall |].
  intros factor Hpos. cbn beta.
  assert (factor <> 0) by lra.
  repeat split.
  - assumption.
  - intros x. now apply invert_convert.
  - intros y. now apply convert_invert.
Qed.

(** ** Absolute encoder offsets *)

(** C8 holds for three of the four offsets and fails for the front-left one:
    it is the reading divided by radians per degree, not by 360, and so is a
    number beyond 11000 instead of a fraction of a rotation. *)
Theorem absolute_encoder_offsets :
  (kFrontRightAbsoluteEncoderOffset = 125.420 / 360 /\
   0 <= kFrontRightAbsoluteEncoderOffset < 1) /\
  (kBackLeftAbsoluteEncoderOffset = 341.719 / 360 /\
   0 <= kBackLeftAbsoluteEncoderOffset < 1) /\
  (kBackRightAbsoluteEncoderOffset = 331.260 / 360 /\
   0 <= kBackRightAbsoluteEncoderOffset < 1) /\
  kFrontLeftAbsoluteEncoderOffset = 256.113 * 180 / PI /\
  kFrontLeftAbsoluteEncoderOffset <> 256.113 / 360 /\
  11525 < kFrontLeftAbsoluteEncoderOffset < 15367.
Proof.
  pose proof PI_gt_3 as H3. pose proof PI_4 as H4.
  assert (Hfl : kFrontLeftAbsoluteEncoderOffset = 256.113 * 180 / PI).
  { unfold kFrontLeftAbsoluteEncoderOffset, kRadiansPerDegree,
      kRadiansPerRevolution, kDegeersPerRevolution.
    decimals. field. lra. }
  assert (Hb : 11525 < kFrontLeftAbsoluteEncoderOffset < 15367).
  { rewrite Hfl. split.
    - apply lt_div_r; lra.
    - apply lt_div_l; lra. }
  unfold kFrontRightAbsoluteEncoderOffset, kBackLeftAbsoluteEncoderOffset,
    kBackRightAbsoluteEncoderOffset, kDegeersPerRevolution.
  repeat split; try lra.
Qed.

(** ** The drive commands *)

Import commands.

Lemma emitted_app {A : Type} (m : M A) (w : World) (l : list Event) :
  trace (snd (m w)) = trace w ++ l -> emitted m w = l.
Proof. intros H. unfold emitted. rewrite H. apply drop_app_length. Qed.

Lemma ArcadeDrive_execute_run (self : ArcadeDrive.t) (w : World) :
  ArcadeDrive.execute self w
  = (tt, mkWorld (prefs w)
           (trace w ++
            [ Polled AxisForward; Polled AxisRotation; PrefGet kSensitivityKey;
              ArcadeDriveWithFactors
                (ArcadeDrive.forward self tt) 0
                (ArcadeDrive.rotation self tt
                 * default 0.2 (prefs w !! kSensitivityKey))
                RobotRelative ])).
Proof.
  unfold ArcadeDrive.execute, call, getFloat, arcadeDriveWithFactors, emit,
    mbind, M_bind, mret, M_ret.
  cbn. rewrite <- !app_assoc. reflexivity.
Qed.

Lemma FieldRelativeDrive_execute_run (self : FieldRelativeDrive.t) (w : World) :
  FieldRelativeDrive.execute self w
  = (tt, mkWorld (prefs w)
           (trace w ++
            [ Polled AxisForward; Polled AxisSideways; Polled AxisRotation;
              PrefGet kSensitivityKey;
              ArcadeDriveWithFactors
                (FieldRelativeDrive.forward self tt)
                (FieldRelativeDrive.sideways self tt)
                (FieldRelativeDrive.rotation self tt
                 * default getFloat_defaultValue (prefs w !! kSensitivityKey))
                FieldRelative ])).
Proof.
  unfold FieldRelativeDrive.execute, call, getFloat, arcadeDriveWithFactors,
    emit, mbind, M_bind, mret, M_ret.
  cbn. rewrite <- !app_assoc. reflexivity.
Qed.

(** C6: an [execute] of either command reads the sensitivity from the store
    exactly once, hands the forward (and, for the field-relative command,
    the sideways) input to the drive subsystem as polled, and multiplies only
    the rotation input by the value read.  The store is left as it was. *)
Theorem execute_reads_sensitivity_once
    (a : ArcadeDrive.t) (f : FieldRelativeDrive.t) (w : World) :
  let ka := default 0.2 (prefs w !! kSensitivityKey) in
  let kf := default getFloat_defaultValue (prefs w !! kSensitivityKey) in
  (reads kSensitivityKey (emitted (ArcadeDrive.execute a) w) = 1%nat /\
   driveCalls (emitted (ArcadeDrive.execute a) w)
   = [(ArcadeDrive.forward a tt, 0, ArcadeDrive.rotation a tt * ka, RobotRelative)] /\
   prefs (snd (ArcadeDrive.execute a w)) = prefs w) /\
  (reads kSensitivityKey (emitted (FieldRelativeDrive.execute f) w) = 1%nat /\
   driveCalls (emitted (FieldRelativeDrive.execute f) w)
   = [(FieldRelativeDrive.forward f tt, FieldRelativeDrive.sideways f tt,
       FieldRelativeDrive.rotation f tt * kf, FieldRelative)] /\
   prefs (snd (FieldRelativeDrive.execute f w)) = prefs w).
Proof.
  intros ka kf. split.
  - rewrite (emitted_app _ w _
               (f_equal (fun r => trace (snd r)) (ArcadeDrive_execute_run a w))).
    rewrite ArcadeDrive_execute_run. repeat split.
  - rewrite (emitted_app _ w _
               (f_equal (fun r => trace (snd r)) (FieldRelativeDrive_execute_run f w))).
    rewrite FieldRelativeDrive_execute_run. repeat split.
Qed.

(** C9: whatever the two joystick functions and the state, an [execute] of
    the arcade command makes one request to the drive subsystem, whose
    sideways component is 0 and whose mode is robot-relative. *)
Theorem ArcadeDrive_sideways_is_zero (fwd rot : Callable) (w : World) :
  exists f r,
    driveCalls (emitted (ArcadeDrive.execute (ArcadeDrive.mk fwd rot)) w)
    = [(f, 0, r, RobotRelative)].
Proof.
  eexists _, _.
  rewrite (emitted_app _ w _
             (f_equal (fun r => trace (snd r)) (ArcadeDrive_execute_run _ w))).
  reflexivity.
Qed.

Lemma initFloat_lookup (key : string) (value : R) (w : World) :
  prefs (snd (initFloat key value w)) !! key
  = Some (default value (prefs w !! key)).
Proof.
  unfold initFloat. cbn.
  destruct (prefs w !! key) as [v |] eqn:E; cbn.
  - exact E.
  - apply lookup_insert_eq.
Qed.

Lemma constructArcadeFirst_run (fa ra ff sf rf : Callable) (w : World) :
  fst (constructArcadeFirst fa ra ff sf rf w)
  = (ArcadeDrive.mk fa ra, FieldRelativeDrive.mk ff sf rf) /\
  prefs (snd (constructArcadeFirst fa ra ff sf rf w)) !! kSensitivityKey
  = Some (default 0.2 (prefs w !! kSensitivityKey)).
Proof.
  unfold constructArcadeFirst, ArcadeDrive.init, FieldRelativeDrive.init,
    mbind, M_bind, mret, M_ret.
  pose proof (initFloat_lookup kSensitivityKey 0.2 w) as H1.
  destruct (initFloat kSensitivityKey 0.2 w) as [[] w1] eqn:E1.
  pose proof (initFloat_lookup kSensitivityKey 0.4 w1) as H2.
  destruct (initFloat kSensitivityKey 0.4 w1) as [[] w2] eqn:E2.
  cbn in *. split; [reflexivity |].
  rewrite H2, H1. reflexivity.
Qed.

Lemma constructFieldRelativeFirst_run (fa ra ff sf rf : Callable) (w : World) :
  fst (constructFieldRelativeFirst fa ra ff sf rf w)
  = (ArcadeDrive.mk fa ra, FieldRelativeDrive.mk ff sf rf) /\
  prefs (snd (constructFieldRelativeFirst fa ra ff sf rf w)) !! kSensitivityKey
  = Some (default 0.4 (prefs w !! kSensitivityKey)).
Proof.
  unfold constructFieldRelativeFirst, ArcadeDrive.init, FieldRelativeDrive.init,
    mbind, M_bind, mret, M_ret.
  pose proof (initFloat_lookup kSensitivityKey 0.4 w) as H1.
  destruct (initFloat kSensitivityKey 0.4 w) as [[] w1] eqn:E1.
  pose proof (initFloat_lookup kSensitivityKey 0.2 w1) as H2.
  destruct (initFloat kSensitivityKey 0.2 w1) as [[] w2] eqn:E2.
  cbn in *. split; [reflexivity |].
  rewrite H2, H1. reflexivity.
Qed.

(** Once the key holds a value, both commands scale the rotation by it. *)
Lemma execute_scaled_by_stored (a : ArcadeDrive.t) (f : FieldRelativeDrive.t)
    (w : World) (v : R) :
  prefs w !! kSensitivityKey = Some v ->
  driveCalls (emitted (ArcadeDrive.execute a) w)
  = [(ArcadeDrive.forward a tt, 0, ArcadeDrive.rotation a tt * v, RobotRelative)] /\
  driveCalls (emitted (FieldRelativeDrive.execute f) w)
  = [(FieldRelativeDrive.forward f tt, FieldRelativeDrive.sideways f tt,
      FieldRelativeDrive.rotation f tt * v, FieldRelative)].
Proof.
  intros Hv.
  rewrite (emitted_app _ w _
             (f_equal (fun r => trace (snd r)) (ArcadeDrive_execute_run a w))).
  rewrite (emitted_app _ w _
             (f_equal (fun r => trace (snd r)) (FieldRelativeDrive_execute_run f w))).
  rewrite Hv. split; reflexivity.
Qed.

(** C10: both constructors initialise the one key "Robot Relative
    Sensitivity", the arcade command with 0.2 and the field-relative command
    with 0.4.  A value already stored is kept; on a store without the key
    the value is the default of the command constructed first; and after
    construction, in either order, both commands scale the rotation by that
    one stored value. *)
Theorem sensitivity_shared_first_constructor_wins
    (fa ra ff sf rf : Callable) (w : World) :
  let arcadeFirst := constructArcadeFirst fa ra ff sf rf w in
  let fieldFirst := constructFieldRelativeFirst fa ra ff sf rf w in
  let v1 := default 0.2 (prefs w !! kSensitivityKey) in
  let v2 := default 0.4 (prefs w !! kSensitivityKey) in
  emitted (ArcadeDrive.init fa ra) w = [PrefInit "Robot Relative Sensitivity" 0.2] /\
  emitted (FieldRelativeDrive.init ff sf rf) w
  = [PrefInit "Robot Relative Sensitivity" 0.4] /\
  (prefs (snd arcadeFirst) !! kSensitivityKey = Some v1 /\
   driveCalls (emitted (ArcadeDrive.execute (fst (fst arcadeFirst))) (snd arcadeFirst))
   = [(fa tt, 0, ra tt * v1, RobotRelative)] /\
   driveCalls (emitted (FieldRelativeDrive.execute (snd (fst arcadeFirst)))
                       (snd arcadeFirst))
   = [(ff tt, sf tt, rf tt * v1, FieldRelative)]) /\
  (prefs (snd fieldFirst) !! kSensitivityKey = Some v2 /\
   driveCalls (emitted (ArcadeDrive.execute (fst (fst fieldFirst))) (snd fieldFirst))
   = [(fa tt, 0, ra tt * v2, RobotRelative)] /\
   driveCalls (emitted (FieldRelativeDrive.execute (snd (fst fieldFirst)))
                       (snd fieldFirst))
   = [(ff tt, sf tt, rf tt * v2, FieldRelative)]).
Proof.
  intros arcadeFirst fieldFirst v1 v2.
  destruct (constructArcadeFirst_run fa ra ff sf rf w) as [Ha1 Ha2].
  destruct (constructFieldRelativeFirst_run fa ra ff sf rf w) as [Hf1 Hf2].
  fold arcadeFirst in Ha1, Ha2. fold fieldFirst in Hf1, Hf2.
  fold v1 in Ha2. fold v2 in Hf2.
  split; [| split; [| split]].
  - apply emitted_app. reflexivity.
  - apply emitted_app. reflexivity.
  - split; [exact Ha2 |].
    rewrite Ha1. cbn [fst snd].
    apply (execute_scaled_by_stored (ArcadeDrive.mk fa ra)
             (FieldRelativeDrive.mk ff sf rf) _ _ Ha2).
  - split; [exact Hf2 |].
    rewrite Hf1. cbn [fst snd].
    apply (execute_scaled_by_stored (ArcadeDrive.mk fa ra)
             (FieldRelativeDrive.mk ff sf rf) _ _ Hf2).
Qed.

(** ** Angles *)

Lemma wrap_range (a : R) : - PI < wrap a <= PI.
Proof.
  unfold wrap.
  destruct (base_fp ((PI - a) / (2 * PI))) as [H0 H1].
  pose proof PI_RGT_0. split; nra.
Qed.

Lemma wrap_shift (a : R) : exists k : Z, wrap a = a + 2 * PI * IZR k.
Proof.
  exists (Int_part ((PI - a) / (2 * PI))).
  unfold wrap, frac_part. pose proof PI_neq0. field. assumption.
Qed.

Lemma IZR_small (z : Z) : -1 < IZR z < 1 -> z = 0%Z.
Proof.
  intros [Hl Hu].
  apply lt_IZR in Hu. change (-1) with (IZR (-1)) in Hl. apply lt_IZR in Hl. lia.
Qed.

(** An angle of (-PI, PI] that differs from [a] by whole turns is [wrap a]. *)
Lemma wrap_unique (a y : R) (k : Z) :
  - PI < y <= PI -> y = a + 2 * PI * IZR k -> wrap a = y.
Proof.
  intros Hy Hk.
  destruct (wrap_shift a) as [n Hn].
  pose proof (wrap_range a) as Hw. pose proof PI_RGT_0 as Hpi.
  assert (Hd : wrap a - y = 2 * PI * IZR (n - k)) by (rewrite minus_IZR; lra).
  assert (Hz : (n - k = 0)%Z).
  { apply IZR_small. split; nra. }
  rewrite Hz in Hd. lra.
Qed.

Lemma wrap_id (a : R) : - PI < a <= PI -> wrap a = a.
Proof. intros H. apply (wrap_unique a a 0); [exact H | lra]. Qed.

Lemma wrap_plus_PI_high (a : R) : 0 < wrap a -> wrap (a + PI) = wrap a - PI.
Proof.
  intros H. destruct (wrap_shift a) as [k Hk]. pose proof (wrap_range a).
  apply (wrap_unique _ _ (k - 1)); [lra |]. rewrite minus_IZR. lra.
Qed.

Lemma wrap_plus_PI_low (a : R) : wrap a <= 0 -> wrap (a + PI) = wrap a + PI.
Proof.
  intros H. destruct (wrap_shift a) as [k Hk]. pose proof (wrap_range a).
  pose proof PI_RGT_0.
  apply (wrap_unique _ _ k); lra.
Qed.

(** ** Module optimization *)

Import SwerveModuleController.

Lemma angularDistance_range (c t : R) : 0 <= angularDistance c t <= PI.
Proof.
  unfold angularDistance. pose proof (wrap_range (t - c)).
  split; [apply Rabs_pos | apply Rabs_le; lra].
Qed.

Lemma optimize_keep (c : R) (target : ModuleState) :
  angularDistance c (angle target) <= PI / 2 -> optimize c target = target.
Proof.
  intros H. unfold optimize. destruct (decide _) as [Hlt |]; [lra | reflexivity].
Qed.

Lemma optimize_flip (c : R) (target : ModuleState) :
  PI / 2 < angularDistance c (angle target) ->
  optimize c target = mkModuleState (- speed target) (angle target + PI).
Proof.
  intros H. unfold optimize. destruct (decide _); [reflexivity | contradiction].
Qed.

(** Rotating the target by PI turns a distance d into PI - d. *)
Lemma angularDistance_plus_PI (c t : R) :
  angularDistance c (t + PI) = PI - angularDistance c t.
Proof.
  unfold angularDistance.
  replace (t + PI - c) with (t - c + PI) by lra.
  pose proof (wrap_range (t - c)) as Hr.
  destruct (Rlt_le_dec 0 (wrap (t - c))) as [Hpos | Hneg].
  - rewrite wrap_plus_PI_high by exact Hpos.
    rewrite (Rabs_right (wrap (t - c))) by lra.
    rewrite Rabs_left1 by lra. lra.
  - rewrite wrap_plus_PI_low by exact Hneg.
    rewrite (Rabs_left1 (wrap (t - c))) by lra.
    rewrite Rabs_right by lra. lra.
Qed.


(** C2: for every current angle and every target, the optimized target is
    at an angular distance of at most PI/2 from the current angle; a target
    at a distance of exactly PI/2 is left as it is; a target at a distance
    beyond PI/2 has its speed negated and its angle rotated by PI. *)
Theorem optimize_within_quarter_turn (currentAngle : R) (target : ModuleState) :
  angularDistance currentAngle (angle (optimize currentAngle target)) <= PI / 2 /\
  (angularDistance currentAngle (angle target) = PI / 2 ->
   optimize currentAngle target = target) /\
  (PI / 2 < angularDistance currentAngle (angle target) ->
   speed (optimize currentAngle target) = - speed target /\
   angle (optimize currentAngle target) = angle target + PI).
Proof.
  split; [| split].
  - destruct (Rlt_le_dec (PI / 2) (angularDistance currentAngle (angle target)))
      as [Hfar | Hnear].
    + rewrite (optimize_flip _ _ Hfar). cbn.
      rewrite angularDistance_plus_PI. lra.
    + rewrite (optimize_keep _ _ Hnear). exact Hnear.
  - intros Heq. apply optimize_keep. lra.
  - intros Hfar. rewrite (optimize_flip _ _ Hfar). cbn. split; reflexivity.
Qed.

Lemma angularDistance_quarter : angularDistance 0 (PI / 2) = PI / 2.
Proof.
  unfold angularDistance. pose proof PI_RGT_0.
  rewrite wrap_id by lra. rewrite Rabs_right; lra.
Qed.

Lemma angularDistance_half : angularDistance 0 PI = PI.
Proof.
  unfold angularDistance. pose proof PI_RGT_0.
  rewrite wrap_id by lra. rewrite Rabs_right; lra.
Qed.

(** The tie at exactly PI/2 and a flip at PI, on concrete targets. *)
Lemma optimize_within_quarter_turn_witness :
  optimize 0 (mkModuleState 1 (PI / 2)) = mkModuleState 1 (PI / 2) /\
  speed (optimize 0 (mkModuleState 1 PI)) = - 1 /\
  angle (optimize 0 (mkModuleState 1 PI)) = PI + PI.
Proof.
  split.
  - apply (optimize_within_quarter_turn 0 (mkModuleState 1 (PI / 2))).
    exact angularDistance_quarter.
  - apply (optimize_within_quarter_turn 0 (mkModuleState 1 PI)).
    cbn. rewrite angularDistance_half. pose proof PI_RGT_0. lra.
Defined.

(** ** Direction and length of a plane vector *)

Lemma hypot_nonneg (a b : R) : 0 <= hypot a b.
Proof. apply sqrt_pos. Qed.

Lemma hypot_sqr (a b : R) : hypot a b * hypot a b = a ^ 2 + b ^ 2.
Proof. unfold hypot. apply sqrt_sqrt. nra. Qed.

Lemma hypot_unique (a b h : R) : 0 <= h -> h * h = a ^ 2 + b ^ 2 -> hypot a b = h.
Proof. intros Hh Heq. unfold hypot. apply sqrt_lem_1; [nra | exact Hh | exact Heq]. Qed.

Lemma hypot_pos (a b : R) : a <> 0 \/ b <> 0 -> 0 < hypot a b.
Proof.
  intros H. unfold hypot. apply sqrt_lt_R0.
  destruct H; nra.
Qed.


Lemma hypot_0_l (b : R) : hypot 0 b = Rabs b.
Proof. apply hypot_unique; [apply Rabs_pos |]. unfold Rabs. destruct (Rcase_abs b); nra. Qed.

Lemma hypot_scale (x y : R) :
  x <> 0 -> hypot x y = Rabs x * sqrt (1 + (y / x)²).
Proof.
  intros Hx.
  assert (Hs : 0 <= 1 + (y / x)²) by (unfold Rsqr; nra).
  apply hypot_unique.
  - apply Rmult_le_pos; [apply Rabs_pos | apply sqrt_pos].
  - replace (Rabs x * sqrt (1 + (y / x)²) * (Rabs x * sqrt (1 + (y / x)²)))
      with ((Rabs x * Rabs x) * (sqrt (1 + (y / x)²) * sqrt (1 + (y / x)²))) by ring.
    rewrite sqrt_sqrt by exact Hs.
    replace (Rabs x * Rabs x) with (x * x)
      by (unfold Rabs; destruct (Rcase_abs x); ring).
    unfold Rsqr. field. exact Hx.
Qed.

Lemma cos_minus_PI (a : R) : cos (a - PI) = - cos a.
Proof. rewrite cos_minus, cos_PI, sin_PI. ring. Qed.

Lemma sin_minus_PI (a : R) : sin (a - PI) = - sin a.
Proof. rewrite sin_minus, cos_PI, sin_PI. ring. Qed.

(** [atan2 y x] is the direction of the vector (x, y): scaled by the length
    of the vector, its cosine and sine give back the components. *)
Lemma atan2_direction (x y : R) :
  hypot x y * cos (atan2 y x) = x /\ hypot x y * sin (atan2 y x) = y.
Proof.
  unfold atan2.
  destruct (decide (0 < x)) as [Hpos | Hnpos];
    [| destruct (decide (x < 0)) as [Hneg | Hnneg]].
  - assert (Hs : 0 < sqrt (1 + (y / x)²))
      by (apply sqrt_lt_R0; unfold Rsqr; nra).
    rewrite hypot_scale, cos_atan, sin_atan, Rabs_right by lra.
    split; field; lra.
  - assert (Hs : 0 < sqrt (1 + (y / x)²))
      by (apply sqrt_lt_R0; unfold Rsqr; nra).
    rewrite hypot_scale, Rabs_left by lra.
    destruct (decide (0 <= y)).
    + rewrite neg_cos, neg_sin, cos_atan, sin_atan. split; field; lra.
    + rewrite cos_minus_PI, sin_minus_PI, cos_atan, sin_atan. split; field; lra.
  - assert (x = 0) by lra. subst x. rewrite hypot_0_l.
    destruct (decide (0 < y)); [| destruct (decide (y < 0))].
    + rewrite cos_PI2, sin_PI2, Rabs_right by lra. lra.
    + rewrite cos_neg, sin_neg, cos_PI2, sin_PI2, Rabs_left by lra. lra.
    + assert (y = 0) by lra. subst y. rewrite Rabs_R0. lra.
Qed.

(** The arctangent grows more slowly than its argument: between [a] and [b]
    its slope is 1 / (1 + c^2) at some [c] in between. *)
Lemma atan_mean_value (a b : R) :
  a < b -> exists c, a < c < b /\ atan b - atan a = / (1 + c ^ 2) * (b - a).
Proof.
  intros Hab.
  destruct (MVT_cor2 atan (fun x => / (1 + x ^ 2)) a b Hab) as (c & Hc & Hr).
  - intros x _. apply derivable_pt_lim_atan.
  - exists c. split; [exact Hr | exact Hc].
Qed.

(** ** Kinematics of the configured geometry *)

Import SwerveKinematics.

Lemma norm_hypot (p : Translation2d) : norm p = hypot (X p) (Y p).
Proof. reflexivity. Qed.

(** The source's [pow(..., 0.5)] is the length of the front-left offset. *)
Lemma kSwerveModuleDistanceFromRobotCenter_hypot :
  kSwerveModuleDistanceFromRobotCenter
  = hypot (X kFrontLeftWheelPosition) (Y kFrontLeftWheelPosition).
Proof.
  unfold kSwerveModuleDistanceFromRobotCenter, hypot. cbn [X Y kFrontLeftWheelPosition].
  replace 0.5 with (/ 2) by lra.
  rewrite Rpower_sqrt.
  - f_equal. ring.
  - rewrite length_value, width_value. lra.
Qed.

Lemma kSwerveModuleDistanceFromRobotCenter_sqr :
  0 <= kSwerveModuleDistanceFromRobotCenter /\
  kSwerveModuleDistanceFromRobotCenter * kSwerveModuleDistanceFromRobotCenter
  = 0.12614894125.
Proof.
  rewrite kSwerveModuleDistanceFromRobotCenter_hypot. split.
  - apply hypot_nonneg.
  - rewrite hypot_sqr. cbn [X Y kFrontLeftWheelPosition].
    rewrite length_value, width_value. lra.
Qed.

Lemma kSwerveModuleDistanceFromRobotCenter_bounds :
  0.3551 < kSwerveModuleDistanceFromRobotCenter < 0.3552.
Proof.
  destruct kSwerveModuleDistanceFromRobotCenter_sqr as [H0 Hs].
  split; nra.
Qed.

Lemma norm_mountPoints :
  Forall (fun p => norm p = kSwerveModuleDistanceFromRobotCenter) (qlist mountPoints).
Proof.
  rewrite kSwerveModuleDistanceFromRobotCenter_hypot.
  unfold qlist, mountPoints, norm, hypot. cbn [fl fr bl br].
  repeat (apply Forall_cons_2); [.. | apply Forall_nil_2]; cbn [X Y kFrontLeftWheelPosition
    kFrontRightWheelPosition kBackLeftWheelPosition kBackRightWheelPosition];
    f_equal; ring.
Qed.


(** Without translation a module moves at the rotation rate times its
    distance from the center. *)
Lemma rotation_speed (w : R) (p : Translation2d) :
  speed (toModuleState 0 0 w p) = Rabs w * norm p.
Proof.
  unfold toModuleState, moduleVelocity. cbn.
  apply hypot_unique.
  - apply Rmult_le_pos; [apply Rabs_pos | apply sqrt_pos].
  - replace (Rabs w * norm p * (Rabs w * norm p))
      with ((Rabs w * Rabs w) * (norm p * norm p)) by ring.
    rewrite norm_hypot, hypot_sqr.
    replace (Rabs w * Rabs w) with (w * w)
      by (unfold Rabs; destruct (Rcase_abs w); ring).
    ring.
Qed.

(** ... and at a right angle to the line from the center to its mount. *)
Lemma rotation_perpendicular (w : R) (p : Translation2d) :
  w <> 0 -> (X p <> 0 \/ Y p <> 0) ->
  cos (angle (toModuleState 0 0 w p)) * X p
  + sin (angle (toModuleState 0 0 w p)) * Y p = 0.
Proof.
  intros Hw Hp. unfold toModuleState, moduleVelocity. cbn.
  set (vx := 0 - w * Y p). set (vy := 0 + w * X p).
  destruct (atan2_direction vx vy) as [Hc Hs].
  assert (Hh : 0 < hypot vx vy).
  { apply hypot_pos. subst vx vy. destruct Hp; [right | left]; nra. }
  apply (Rmult_eq_reg_l (hypot vx vy)); [| lra].
  replace (hypot vx vy * (cos (atan2 vy vx) * X p + sin (atan2 vy vx) * Y p))
    with ((hypot vx vy * cos (atan2 vy vx)) * X p
          + (hypot vx vy * sin (atan2 vy vx)) * Y p) by ring.
  rewrite Hc, Hs. subst vx vy. ring.
Qed.

Lemma compensate_no_translation (rot : R) : compensate 0 0 rot = rot.
Proof.
  unfold compensate. destruct (decide _) as [[[H | H] _] |]; [lra | lra | reflexivity].
Qed.


(** The held angles come into play only when the front-left module, like
    the other three, is slower than the minimum. *)
Lemma toModuleStates_moving (heading : R) (held : Quad R) (cmd : ChassisVelocityCommand) :
  let t := toRobotFrame heading cmd in
  let rot := compensate (fst t) (snd t) (rotation cmd) in
  kMinWheelLinearVelocity
  <= speed (toModuleState (fst t) (snd t) rot kFrontLeftWheelPosition) ->
  toModuleStates heading held cmd
  = qmap (toModuleState (fst t) (snd t) rot) mountPoints.
Proof.
  intros t rot Hfast. unfold toModuleStates. fold t. fold rot.
  destruct (decide _) as [Hall |]; [| reflexivity].
  apply Forall_cons in Hall as [Hslow _]. cbn in Hslow, Hfast. lra.
Qed.

Lemma pure_rotation_states (heading : R) (held : Quad R) :
  toModuleStates heading held (mkCommand 0 0 1 RobotRelative)
  = qmap (toModuleState 0 0 1) mountPoints.
Proof.
  rewrite toModuleStates_moving; cbn [toRobotFrame mode forward sideways rotation fst snd];
    rewrite compensate_no_translation.
  - reflexivity.
  - rewrite rotation_speed, norm_hypot, <- kSwerveModuleDistanceFromRobotCenter_hypot.
    pose proof kSwerveModuleDistanceFromRobotCenter_bounds.
    rewrite Rabs_right by lra. unfold kMinWheelLinearVelocity. lra.
Qed.

Lemma hypot_rounded_bounds : 0.3546 < hypot 0.238 0.263 < 0.3548.
Proof.
  pose proof (hypot_nonneg 0.238 0.263) as H0.
  pose proof (hypot_sqr 0.238 0.263) as Hs.
  split; nra.
Qed.

Lemma atan2_second_quadrant (y x : R) :
  x < 0 -> 0 <= y -> atan2 y x = atan (y / x) + PI.
Proof.
  intros Hx Hy. unfold atan2.
  destruct (decide (0 < x)); [lra |].
  destruct (decide (x < 0)); [| lra].
  destruct (decide (0 <= y)); [reflexivity | lra].
Qed.

(** The direction for the exact offset and the direction for the offset
    rounded to millimeters differ by less than a milliradian. *)
Lemma front_left_angle_rounded :
  Rabs (atan2 (X kFrontLeftWheelPosition) (- Y kFrontLeftWheelPosition)
        - atan2 0.238 (- 0.263)) < 0.001.
Proof.
  cbn [X Y kFrontLeftWheelPosition]. rewrite length_value, width_value.
  rewrite !atan2_second_quadrant by lra.
  set (a := 0.238125 / - (0.263525)). set (b := 0.238 / - 0.263).
  assert (Ha : -0.9037 < a < -0.9036).
  { subst a. split; [apply lt_div_r_neg | apply lt_div_l_neg]; lra. }
  assert (Hb : -0.9050 < b < -0.9049).
  { subst b. split; [apply lt_div_r_neg | apply lt_div_l_neg]; lra. }
  destruct (atan_mean_value b a) as (c & Hc & Hd); [lra |].
  assert (Hq : 0 < / (1 + c ^ 2) < 0.56).
  { assert (Hden : 1.81 < 1 + c ^ 2) by nra.
    split.
    - apply Rinv_0_lt_compat. lra.
    - replace 0.56 with (/ (1 / 0.56)) by lra.
      apply Rinv_lt_contravar; [nra | lra]. }
  replace (atan a + PI - (atan b + PI)) with (atan a - atan b) by ring.
  rewrite Hd. rewrite Rabs_right by nra. nra.
Qed.

(** C3: the front-left mount offset is (9.375 in, 10.375 in) in meters,
    which is (0.238, 0.263) cut to millimeters; the distance constant is the
    length of that offset and rounds to 0.355; and for the pure rotation
    forward = 0, sideways = 0, rotation = 1 the front-left module gets the
    speed 1 * hypot(x, y), equal to the distance constant and within a
    millimeter per second of 1 * hypot(0.238, 0.263), and the angle
    atan2(x, -y), within a milliradian of atan2(0.238, -0.263) and at a right
    angle to the line from the center to the mount point. *)
Theorem front_left_pure_rotation (heading : R) (held : Quad R) :
  let p := kFrontLeftWheelPosition in
  let s := fl (toModuleStates heading held (mkCommand 0 0 1 RobotRelative)) in
  (X p = 9.375 * 0.0254 /\ Y p = 10.375 * 0.0254) /\
  (0.238 <= X p < 0.239 /\ 0.263 <= Y p < 0.264) /\
  kSwerveModuleDistanceFromRobotCenter = hypot (X p) (Y p) /\
  0.3545 <= kSwerveModuleDistanceFromRobotCenter < 0.3555 /\
  speed s = 1 * hypot (X p) (Y p) /\
  speed s = kSwerveModuleDistanceFromRobotCenter /\
  Rabs (speed s - 1 * hypot 0.238 0.263) < 0.001 /\
  angle s = atan2 (X p) (- Y p) /\
  Rabs (angle s - atan2 0.238 (- 0.263)) < 0.001 /\
  cos (angle s) * X p + sin (angle s) * Y p = 0.
Proof.
  intros p s.
  pose proof kSwerveModuleDistanceFromRobotCenter_bounds as Hd.
  pose proof kSwerveModuleDistanceFromRobotCenter_hypot as Hh. fold p in Hh.
  pose proof hypot_rounded_bounds as Hr.
  assert (Hs : s = toModuleState 0 0 1 p).
  { subst s. rewrite pure_rotation_states. reflexivity. }
  assert (Hspeed : speed s = kSwerveModuleDistanceFromRobotCenter).
  { rewrite Hs, rotation_speed, norm_hypot, <- Hh, Rabs_R1. ring. }
  assert (Hangle : angle s = atan2 (X p) (- Y p)).
  { rewrite Hs. unfold toModuleState, moduleVelocity. cbn. f_equal; ring. }
  assert (Hx : X p = 0.238125) by apply length_value.
  assert (Hy : Y p = 0.263525) by apply width_value.
  assert (Hnear : Rabs (speed s - 1 * hypot 0.238 0.263) < 0.001).
  { rewrite Hspeed. unfold Rabs. destruct (Rcase_abs _); lra. }
  assert (Hturn : Rabs (angle s - atan2 0.238 (- 0.263)) < 0.001).
  { rewrite Hangle. apply front_left_angle_rounded. }
  assert (Hperp : cos (angle s) * X p + sin (angle s) * Y p = 0).
  { rewrite Hs. apply rotation_perpendicular; [lra | left; lra]. }
  repeat split; try assumption; lra.
Qed.

(** ** The drive pipeline *)

Import DriveCoordinator.


Lemma clamp_above (limit x : R) : limit < x -> clamp limit x = limit.
Proof. intros H. unfold clamp. destruct (decide (limit < x)); [reflexivity | lra]. Qed.







Lemma kMaxWheelLinearVelocity_value (freeSpeed : R) :
  kMaxWheelLinearVelocity freeSpeed = 0.0508 * freeSpeed / (300 / 49).
Proof.
  unfold kMaxWheelLinearVelocity, kMaxWheelAngularVelocity, kMaxMotorAngularVelocity.
  rewrite kWheelDistancePerRadian_value, kDriveGearingRatio_value. lra.
Qed.




























(** * Further properties of the constants *)

(** X1: the drive-base radius handed to the path follower is the distance
    constant, every mount point is at that distance from the center, and the
    follower's module speed limit over its radius is the rotation limit of
    the drive. *)
Theorem path_follower_matches_drive_limits (freeSpeed : R) :
  let cfg := kPathFollowingConfig freeSpeed in
  driveBaseRadius cfg = kSwerveModuleDistanceFromRobotCenter /\
  Forall (fun p => norm p = driveBaseRadius cfg) (qlist mountPoints) /\
  maxModuleSpeed cfg = kMaxWheelLinearVelocity freeSpeed /\
  maxModuleSpeed cfg / driveBaseRadius cfg = kMaxRotationAngularVelocity freeSpeed.
Proof.
  intros cfg.
  assert (Hr : driveBaseRadius cfg = kSwerveModuleDistanceFromRobotCenter).
  { subst cfg. cbn [driveBaseRadius kPathFollowingConfig].
    symmetry. apply kSwerveModuleDistanceFromRobotCenter_hypot. }
  split; [exact Hr | split; [| split]].
  - rewrite Hr. apply norm_mountPoints.
  - reflexivity.
  - rewrite Hr. reflexivity.
Qed.

(** X2: the mount points are centred on the robot: their coordinates add up
    to zero on each axis, and mirroring a mount point in either axis gives
    another mount point. *)
Theorem mountPoints_centred :
  X kFrontLeftWheelPosition + X kFrontRightWheelPosition
  + X kBackLeftWheelPosition + X kBackRightWheelPosition = 0 /\
  Y kFrontLeftWheelPosition + Y kFrontRightWheelPosition
  + Y kBackLeftWheelPosition + Y kBackRightWheelPosition = 0 /\
  Forall (fun p => mkTranslation2d (- X p) (Y p) ∈ qlist mountPoints /\
                   mkTranslation2d (X p) (- Y p) ∈ qlist mountPoints)
         (qlist mountPoints).
Proof.
  split; [cbn; lra | split; [cbn; lra |]].
  unfold qlist, mountPoints. cbn [fl fr bl br].
  repeat apply Forall_cons_2; [.. | apply Forall_nil_2]; cbn [X Y
    kFrontLeftWheelPosition kFrontRightWheelPosition
    kBackLeftWheelPosition kBackRightWheelPosition];
    rewrite ?Ropp_involutive; split; apply list_elem_of_In; cbn; tauto.
Qed.

(** X3: every module sits inside the frame: its forward offset is less than
    half the robot length and its sideways offset less than half the robot
    width. *)
Theorem mountPoints_inside_frame :
  Forall (fun p => Rabs (X p) < kRobotLength / 2 /\ Rabs (Y p) < kRobotWidth / 2)
         (qlist mountPoints).
Proof.
  assert (Hl : kRobotLength / 2 = 0.3048) by (unfold kRobotLength; unfold_units; lra).
  assert (Hw : kRobotWidth / 2 = 0.3302) by (unfold kRobotWidth; unfold_units; lra).
  rewrite Hl, Hw.
  unfold qlist, mountPoints. cbn [fl fr bl br].
  repeat apply Forall_cons_2; [.. | apply Forall_nil_2]; cbn [X Y
    kFrontLeftWheelPosition kFrontRightWheelPosition
    kBackLeftWheelPosition kBackRightWheelPosition];
    rewrite length_value, width_value;
    split; unfold Rabs; destruct (Rcase_abs _); lra.
Qed.

(** X4: whatever the free speed of the motor, the wheel speed limit is the
    wheel radius times the motor speed over the drive gearing; a module at
    the rotation limit moves at exactly the wheel speed limit (omega = v / r);
    and the steering limit is 2/7 of the wheel's angular limit. *)
Theorem velocity_limits_consistent (freeSpeed : R) :
  kMaxWheelLinearVelocity freeSpeed = kWheelRadius * (freeSpeed / kDriveGearingRatio) /\
  kMaxRotationAngularVelocity freeSpeed * kSwerveModuleDistanceFromRobotCenter
  = kMaxForwardLinearVelocity freeSpeed /\
  7 * kMaxSteerAngularVelocity freeSpeed = 2 * kMaxWheelAngularVelocity freeSpeed.
Proof.
  split; [| split].
  - unfold kMaxWheelLinearVelocity, kMaxWheelAngularVelocity, kMaxMotorAngularVelocity.
    rewrite kWheelDistancePerRadian_value. unfold_wheel. lra.
  - unfold kMaxForwardLinearVelocity, kMaxRotationAngularVelocity.
    pose proof kSwerveModuleDistanceFromRobotCenter_bounds. field. lra.
  - unfold kMaxSteerAngularVelocity, kMaxWheelAngularVelocity,
      kMaxMotorAngularVelocity, kSteerGearingRatio.
    rewrite kDriveGearingRatio_value. lra.
Qed.

(** X5: with a motor that turns at all, the acceleration limits bring the
    robot from rest to its speed limit in one second and to its rotation
    limit in half a second. *)
Theorem acceleration_limits_ramp_times (freeSpeed : R) :
  0 < freeSpeed ->
  kMaxForwardLinearVelocity freeSpeed / kMaxForwardLinearAcceleration freeSpeed = 1 /\
  kMaxSidewaysLinearVelocity freeSpeed / kMaxSidewaysLinearAcceleration freeSpeed = 1 /\
  kMaxRotationAngularVelocity freeSpeed / kMaxRotationAngularAcceleration freeSpeed
  = 0.5.
Proof.
  intros Hfree.
  assert (Hv : 0 < kMaxWheelLinearVelocity freeSpeed).
  { rewrite kMaxWheelLinearVelocity_value. lra. }
  assert (Hw : 0 < kMaxRotationAngularVelocity freeSpeed).
  { unfold kMaxRotationAngularVelocity.
    pose proof kSwerveModuleDistanceFromRobotCenter_bounds.
    apply Rdiv_lt_0_compat; lra. }
  unfold kMaxForwardLinearAcceleration, kMaxSidewaysLinearAcceleration,
    kMaxWheelLinearAcceleration, kMaxRotationAngularAcceleration,
    kMaxForwardLinearVelocity, kMaxSidewaysLinearVelocity.
  repeat split; decimals; field; lra.
Qed.

Lemma acceleration_limits_ramp_times_witness :
  0 < 600 /\
  kMaxRotationAngularVelocity 600 / kMaxRotationAngularAcceleration 600 = 0.5.
Proof.
  assert (H : 0 < 600) by lra.
  split; [exact H |].
  exact (proj2 (proj2 (acceleration_limits_ramp_times 600 H))).
Defined.

(** X6: the two routes from an angular velocity to Talon velocity units
    agree: through RPM (pulses per revolution over 60 over 10, times RPM per
    rad/s) and directly (pulses per radian over the ten 100 ms periods of a
    second); and RPM per rad/s times the radians of a revolution is the
    seconds of a minute. *)
Theorem talon_velocity_units_agree :
  kTalonVelocityPerAngularVelocity
  = kTalonEncoderPulsesPerRadian / k100MillisecondsPerSecond /\
  kRPMPerAngularVelocity * kRadiansPerRevolution = kSecondsPerMinute.
Proof.
  pose proof PI_neq0.
  unfold kTalonVelocityPerAngularVelocity, kTalonVelocityPerRPM,
    kRPMPerAngularVelocity, kTalonEncoderPulsesPerRadian,
    kTalonEncoderPulsesPerRevolution, kSecondsPerMinute,
    k100MillisecondsPerSecond, kRadiansPerRevolution.
  split; field; lra.
Qed.

(** X7: the distance per radian of wheel rotation is the wheel radius, the
    circumference is PI diameters, and the autonomous drive distance is
    eight wheel revolutions backwards, 16 PI radians of wheel rotation. *)
Theorem wheel_arc_length :
  kWheelDistancePerRadian = kWheelRadius /\
  kWheelCircumference = PI * kWheelDiameter /\
  kAutoDriveDistance / kWheelDistancePerRevolution = -8 /\
  kAutoDriveDistance / kWheelDistancePerRadian = - (16 * PI).
Proof.
  pose proof PI_neq0 as Hpi. pose proof PI_RGT_0 as Hpos.
  assert (Hd : kWheelDiameter = 0.1016) by (unfold kWheelDiameter; unfold_units; lra).
  unfold kAutoDriveDistance, kWheelDistancePerRadian, kWheelDistancePerRevolution,
    kWheelCircumference, kRadiansPerRevolution, kWheelRadius.
  rewrite Hd.
  repeat split; decimals; field; lra.
Qed.

(** ** AprilTag table and CAN ids *)

Lemma kFieldLength_value : kFieldLength = 16.54175.
Proof. unfold kFieldLength. unfold_units. lra. Qed.

Lemma kFieldWidth_value : kFieldWidth = 8.0137.
Proof. unfold kFieldWidth. unfold_units. lra. Qed.

Lemma kMetersPerInch_value : kMetersPerInch = 0.0254.
Proof. unfold_units. lra. Qed.

Ltac tag_lookup :=
  unfold kApriltagPositionDict;
  repeat (rewrite lookup_insert_ne by lia);
  first [rewrite lookup_insert_eq | rewrite lookup_empty].

(** X8: the table has a position for the tag numbers 1 to 8 and for no
    other number. *)
Theorem apriltag_ids (k : Z) :
  is_Some (kApriltagPositionDict !! k) <-> (1 <= k <= 8)%Z.
Proof.
  split.
  - intros Hsome.
    destruct (decide (1 <= k <= 8)%Z) as [Hin | Hout]; [exact Hin |].
    exfalso. revert Hsome. tag_lookup. apply is_Some_None.
  - intros Hin.
    assert (Hk : (k = 1 \/ k = 2 \/ k = 3 \/ k = 4 \/ k = 5 \/ k = 6 \/ k = 7 \/ k = 8)%Z)
      by lia.
    destruct Hk as [-> | [-> | [-> | [-> | [-> | [-> | [-> | ->]]]]]]];
      tag_lookup; eexists; reflexivity.
Qed.

(** X9: every tag of the table lies inside the field and above the floor. *)
Theorem apriltags_inside_field :
  map_Forall (fun _ p => 0 < pose_x p < kFieldLength /\
                         0 < pose_y p < kFieldWidth /\
                         0 < pose_z p)
             kApriltagPositionDict.
Proof.
  unfold kApriltagPositionDict.
  rewrite kFieldLength_value, kFieldWidth_value.
  repeat (apply map_Forall_insert_2;
          [cbn [pose_x pose_y pose_z]; rewrite kMetersPerInch_value; lra |]).
  apply map_Forall_empty.
Qed.

(** X10: the table is mirrored about the middle of the field's length: for
    i from 1 to 4 the tags i and 9 - i have the same y and z, tag i faces
    back along the field (yaw PI) and tag 9 - i forward (yaw 0), and their
    x coordinates add up to the field length within 1.1 mm. *)
Theorem apriltags_mirrored (i : Z) (p q : Pose3d) :
  (1 <= i <= 4)%Z ->
  kApriltagPositionDict !! i = Some p ->
  kApriltagPositionDict !! (9 - i)%Z = Some q ->
  pose_y p = pose_y q /\ pose_z p = pose_z q /\
  yaw (pose_rotation p) = PI /\ yaw (pose_rotation q) = 0 /\
  Rabs (pose_x p + pose_x q - kFieldLength) < 0.0011.
Proof.
  intros Hi Hp Hq.
  assert (Hk : (i = 1 \/ i = 2 \/ i = 3 \/ i = 4)%Z) by lia.
  rewrite kFieldLength_value.
  destruct Hk as [-> | [-> | [-> | ->]]];
    revert Hp Hq; tag_lookup; intros Hp; tag_lookup; intros Hq;
    injection Hp as <-; injection Hq as <-;
    cbn [pose_x pose_y pose_z pose_rotation yaw Rotation3d_zero];
    rewrite kMetersPerInch_value;
    repeat split; try lra;
    unfold Rabs; destruct (Rcase_abs _); lra.
Qed.

Lemma apriltags_mirrored_witness :
  exists p q,
    kApriltagPositionDict !! 1%Z = Some p /\
    kApriltagPositionDict !! 8%Z = Some q /\
    pose_y p = pose_y q /\
    Rabs (pose_x p + pose_x q - kFieldLength) < 0.0011.
Proof.
  eexists _, _.
  assert (Hp : kApriltagPositionDict !! 1%Z
               = Some (mkPose3d (kMetersPerInch * 610.77) (kMetersPerInch * 42.19)
                         (kMetersPerInch * 18.22) (mkRotation3d 0.0 0.0 PI)))
    by (tag_lookup; reflexivity).
  assert (Hq : kApriltagPositionDict !! (9 - 1)%Z
               = Some (mkPose3d (kMetersPerInch * 40.45) (kMetersPerInch * 42.19)
                         (kMetersPerInch * 18.22) Rotation3d_zero))
    by (tag_lookup; reflexivity).
  assert (Hi : (1 <= 1 <= 4)%Z) by lia.
  pose proof (apriltags_mirrored 1 _ _ Hi Hp Hq) as (Hy & _ & _ & _ & Hx).
  split; [exact Hp | split; [exact Hq | split; [exact Hy | exact Hx]]].
Defined.

(** X11: no two devices share a CAN id; on every module the steer motor's
    id follows the drive motor's, and the steer encoders are numbered in the
    same module order. *)
Theorem can_ids_distinct :
  NoDup canIds /\
  (kFrontLeftSteerMotorId = kFrontLeftDriveMotorId + 1 /\
   kFrontRightSteerMotorId = kFrontRightDriveMotorId + 1 /\
   kBackLeftSteerMotorId = kBackLeftDriveMotorId + 1 /\
   kBackRightSteerMotorId = kBackRightDriveMotorId + 1)%Z /\
  (kFrontLeftSteerEncoderId < kFrontRightSteerEncoderId
   < kBackLeftSteerEncoderId)%Z /\
  (kBackLeftSteerEncoderId < kBackRightSteerEncoderId)%Z.
Proof.
  split; [| repeat split; reflexivity].
  apply (bool_decide_unpack _). vm_compute. exact I.
Qed.

(** * Further properties of the drive commands *)

(** X12: one [execute] polls each of its joystick functions once, forward
    first and rotation last, then reads the preference, then makes its one
    request to the drive subsystem; the arcade command never polls a
    sideways axis, and neither command initialises a preference. *)
Theorem execute_event_order (a : ArcadeDrive.t) (f : FieldRelativeDrive.t)
    (w : World) :
  (exists fwd rot,
     emitted (ArcadeDrive.execute a) w
     = [ Polled AxisForward; Polled AxisRotation; PrefGet kSensitivityKey;
         ArcadeDriveWithFactors fwd 0 rot RobotRelative ]) /\
  polls AxisSideways (emitted (ArcadeDrive.execute a) w) = 0%nat /\
  (exists fwd side rot,
     emitted (FieldRelativeDrive.execute f) w
     = [ Polled AxisForward; Polled AxisSideways; Polled AxisRotation;
         PrefGet kSensitivityKey;
         ArcadeDriveWithFactors fwd side rot FieldRelative ]).
Proof.
  rewrite (emitted_app _ w _
             (f_equal (fun r => trace (snd r)) (ArcadeDrive_execute_run a w))).
  rewrite (emitted_app _ w _
             (f_equal (fun r => trace (snd r)) (FieldRelativeDrive_execute_run f w))).
  split; [| split].
  - eexists _, _. reflexivity.
  - reflexivity.
  - eexists _, _, _. reflexivity.
Qed.

Lemma initFloat_prefs_present (key : string) (value : R) (w : World) :
  is_Some (prefs w !! key) -> prefs (snd (initFloat key value w)) = prefs w.
Proof. intros [v Hv]. unfold initFloat. cbn. rewrite Hv. reflexivity. Qed.

Lemma initFloat_prefs_other (key k : string) (value : R) (w : World) :
  k <> key -> prefs (snd (initFloat key value w)) !! k = prefs w !! k.
Proof.
  intros Hk. unfold initFloat. cbn.
  destruct (prefs w !! key); [reflexivity |].
  apply lookup_insert_ne. congruence.
Qed.

Lemma ArcadeDrive_init_prefs (fa ra : Callable) (w : World) :
  prefs (snd (ArcadeDrive.init fa ra w))
  = prefs (snd (initFloat kSensitivityKey 0.2 w)).
Proof.
  unfold ArcadeDrive.init, mbind, M_bind, mret, M_ret.
  destruct (initFloat kSensitivityKey 0.2 w) as [[] w1]. reflexivity.
Qed.

Lemma FieldRelativeDrive_init_prefs (ff sf rf : Callable) (w : World) :
  prefs (snd (FieldRelativeDrive.init ff sf rf w))
  = prefs (snd (initFloat kSensitivityKey 0.4 w)).
Proof.
  unfold FieldRelativeDrive.init, mbind, M_bind, mret, M_ret.
  destruct (initFloat kSensitivityKey 0.4 w) as [[] w1]. reflexivity.
Qed.

(** X13: constructing a command changes no preference other than the
    sensitivity, and when the sensitivity already has a value (say one the
    operator has set) it leaves the whole store as it is. *)
Theorem init_keeps_preferences (fa ra ff sf rf : Callable) (w : World)
    (k : string) :
  (k <> kSensitivityKey ->
   prefs (snd (ArcadeDrive.init fa ra w)) !! k = prefs w !! k /\
   prefs (snd (FieldRelativeDrive.init ff sf rf w)) !! k = prefs w !! k) /\
  (is_Some (prefs w !! kSensitivityKey) ->
   prefs (snd (ArcadeDrive.init fa ra w)) = prefs w /\
   prefs (snd (FieldRelativeDrive.init ff sf rf w)) = prefs w).
Proof.
  rewrite ArcadeDrive_init_prefs, FieldRelativeDrive_init_prefs.
  split.
  - intros Hk. split; apply initFloat_prefs_other; exact Hk.
  - intros Hv. split; apply initFloat_prefs_present; exact Hv.
Qed.

Lemma init_keeps_preferences_witness :
  let w := mkWorld (<["Robot Relative Sensitivity" := 0.3]> ∅) [] in
  prefs (snd (ArcadeDrive.init (fun _ => 1) (fun _ => 1) w)) !! "other" = None /\
  prefs (snd (FieldRelativeDrive.init (fun _ => 1) (fun _ => 0) (fun _ => 1) w))
  = prefs w.
Proof.
  intros w.
  pose proof (init_keeps_preferences (fun _ => 1) (fun _ => 1) (fun _ => 1)
                (fun _ => 0) (fun _ => 1) w "other") as [Hother Hsame].
  assert (Hne : "other" <> kSensitivityKey) by discriminate.
  assert (Hsome : is_Some (prefs w !! kSensitivityKey)).
  { exists 0.3. apply lookup_insert_eq. }
  split.
  - rewrite (proj1 (Hother Hne)). reflexivity.
  - exact (proj2 (Hsame Hsome)).
Defined.

Lemma construct_prefs_present (fa ra ff sf rf : Callable) (w : World) :
  is_Some (prefs w !! kSensitivityKey) ->
  prefs (snd (constructArcadeFirst fa ra ff sf rf w)) = prefs w /\
  prefs (snd (constructFieldRelativeFirst fa ra ff sf rf w)) = prefs w.
Proof.
  intros Hv.
  unfold constructArcadeFirst, constructFieldRelativeFirst, ArcadeDrive.init,
    FieldRelativeDrive.init, mbind, M_bind, mret, M_ret.
  pose proof (initFloat_prefs_present kSensitivityKey 0.2 w Hv) as Ha.
  pose proof (initFloat_prefs_present kSensitivityKey 0.4 w Hv) as Hf.
  destruct (initFloat kSensitivityKey 0.2 w) as [[] wa].
  destruct (initFloat kSensitivityKey 0.4 w) as [[] wf].
  cbn [snd] in Ha, Hf.
  assert (Hva : is_Some (prefs wa !! kSensitivityKey)) by (rewrite Ha; exact Hv).
  assert (Hvf : is_Some (prefs wf !! kSensitivityKey)) by (rewrite Hf; exact Hv).
  pose proof (initFloat_prefs_present kSensitivityKey 0.4 wa Hva) as Haf.
  pose proof (initFloat_prefs_present kSensitivityKey 0.2 wf Hvf) as Hfa.
  destruct (initFloat kSensitivityKey 0.4 wa) as [[] waf].
  destruct (initFloat kSensitivityKey 0.2 wf) as [[] wfa].
  cbn [snd] in *. split; congruence.
Qed.

(** X14: the order in which the two commands are constructed makes no
    difference to the preference store exactly when the sensitivity already
    has a value; on a store without it the two orders leave different
    stores. *)
Theorem construction_order_immaterial_iff_present
    (fa ra ff sf rf : Callable) (w : World) :
  prefs (snd (constructArcadeFirst fa ra ff sf rf w))
  = prefs (snd (constructFieldRelativeFirst fa ra ff sf rf w))
  <-> is_Some (prefs w !! kSensitivityKey).
Proof.
  split.
  - intros Heq.
    destruct (prefs w !! kSensitivityKey) as [v |] eqn:E; [eexists; reflexivity |].
    exfalso.
    destruct (constructArcadeFirst_run fa ra ff sf rf w) as [_ Ha].
    destruct (constructFieldRelativeFirst_run fa ra ff sf rf w) as [_ Hf].
    rewrite Heq, Hf, E in Ha. cbn in Ha. injection Ha as Ha. lra.
  - intros Hv.
    destruct (construct_prefs_present fa ra ff sf rf w Hv) as [Ha Hf].
    congruence.
Qed.

(** X15: when the sensitivity is missing from the store at the time of an
    [execute], the arcade command falls back to 0.2, while the
    field-relative command, which names no fallback, gets the framework's
    0 and asks for no rotation whatever the joystick says. *)
Theorem execute_without_sensitivity (a : ArcadeDrive.t) (f : FieldRelativeDrive.t)
    (w : World) :
  prefs w !! kSensitivityKey = None ->
  driveCalls (emitted (ArcadeDrive.execute a) w)
  = [(ArcadeDrive.forward a tt, 0, ArcadeDrive.rotation a tt * 0.2, RobotRelative)] /\
  driveCalls (emitted (FieldRelativeDrive.execute f) w)
  = [(FieldRelativeDrive.forward f tt, FieldRelativeDrive.sideways f tt, 0,
      FieldRelative)].
Proof.
  intros Hnone.
  rewrite (emitted_app _ w _
             (f_equal (fun r => trace (snd r)) (ArcadeDrive_execute_run a w))).
  rewrite (emitted_app _ w _
             (f_equal (fun r => trace (snd r)) (FieldRelativeDrive_execute_run f w))).
  rewrite Hnone. cbn [default driveCalls]. unfold getFloat_defaultValue.
  rewrite Rmult_0_r. split; reflexivity.
Qed.

Lemma execute_without_sensitivity_witness :
  driveCalls
    (emitted
       (FieldRelativeDrive.execute
          (FieldRelativeDrive.mk (fun _ => 1) (fun _ => 0) (fun _ => 1)))
       (mkWorld ∅ []))
  = [(1, 0, 0, FieldRelative)].
Proof.
  exact (proj2 (execute_without_sensitivity
                  (ArcadeDrive.mk (fun _ => 1) (fun _ => 1))
                  (FieldRelativeDrive.mk (fun _ => 1) (fun _ => 0) (fun _ => 1))
                  (mkWorld ∅ []) (lookup_empty _))).
Defined.

(** X16: with a stored sensitivity s between 0 and 1 and a rotation input
    between -1 and 1, the rotation either command asks for lies between -s
    and s. *)
Theorem execute_rotation_bounded (a : ArcadeDrive.t) (f : FieldRelativeDrive.t)
    (w : World) (s : R) :
  prefs w !! kSensitivityKey = Some s ->
  0 <= s <= 1 ->
  Rabs (ArcadeDrive.rotation a tt) <= 1 ->
  Rabs (FieldRelativeDrive.rotation f tt) <= 1 ->
  Forall (fun c => Rabs (c.1.2) <= s)
         (driveCalls (emitted (ArcadeDrive.execute a) w)
          ++ driveCalls (emitted (FieldRelativeDrive.execute f) w)).
Proof.
  intros Hs Hrange Ha Hf.
  destruct (execute_scaled_by_stored a f w s Hs) as [-> ->].
  cbn [app].
  repeat apply Forall_cons_2; [.. | apply Forall_nil_2]; cbn [fst snd];
    rewrite Rabs_mult, (Rabs_right s) by lra.
  - pose proof (Rabs_pos (ArcadeDrive.rotation a tt)). nra.
  - pose proof (Rabs_pos (FieldRelativeDrive.rotation f tt)). nra.
Qed.

Lemma execute_rotation_bounded_witness :
  Forall (fun c => Rabs (c.1.2) <= 0.2)
    (driveCalls
       (emitted (ArcadeDrive.execute (ArcadeDrive.mk (fun _ => 1) (fun _ => -1)))
                (mkWorld (<["Robot Relative Sensitivity" := 0.2]> ∅) []))
     ++ driveCalls
          (emitted
             (FieldRelativeDrive.execute
                (FieldRelativeDrive.mk (fun _ => 1) (fun _ => 0) (fun _ => 1)))
             (mkWorld (<["Robot Relative Sensitivity" := 0.2]> ∅) []))).
Proof.
  apply (execute_rotation_bounded
           (ArcadeDrive.mk (fun _ => 1) (fun _ => -1))
           (FieldRelativeDrive.mk (fun _ => 1) (fun _ => 0) (fun _ => 1))
           (mkWorld (<["Robot Relative Sensitivity" := 0.2]> ∅) []) 0.2).
  - apply lookup_insert_eq.
  - lra.
  - cbn. rewrite Rabs_left; lra.
  - cbn. rewrite Rabs_R1. lra.
Defined.

Lemma reads_app (key : string) (l1 l2 : list Event) :
  reads key (l1 ++ l2) = (reads key l1 + reads key l2)%nat.
Proof. unfold reads. rewrite filter_app, length_app. reflexivity. Qed.

Lemma driveCalls_app (l1 l2 : list Event) :
  driveCalls (l1 ++ l2) = driveCalls l1 ++ driveCalls l2.
Proof.
  induction l1 as [| e l1 IH]; [reflexivity |].
  destruct e; cbn; rewrite IH; reflexivity.
Qed.

Section Cycles.

Context {T : Type}.

(** A command whose [execute] leaves the store alone and logs events that
    depend on the command in that cycle and on the store only. *)
Variable execute : T -> M unit.
Variable events : T -> gmap string R -> list Event.
Hypothesis execute_run :
  forall self w,
    execute self w = (tt, mkWorld (prefs w) (trace w ++ events self (prefs w))).

Lemma cycles_run (selves : list T) (w : World) :
  cycles execute selves w
  = (tt, mkWorld (prefs w)
           (trace w ++ concat (map (fun self => events self (prefs w)) selves))).
Proof.
  revert w. induction selves as [| self rest IH]; intros w.
  - cbn. rewrite app_nil_r. destruct w. reflexivity.
  - cbn [cycles]. unfold mbind, M_bind. rewrite execute_run, IH.
    cbn [prefs trace map concat]. rewrite <- app_assoc. reflexivity.
Qed.

Lemma cycles_reads (key : string) (selves : list T) (store : gmap string R) :
  (forall self, reads key (events self store) = 1%nat) ->
  reads key (concat (map (fun self => events self store) selves)) = length selves.
Proof.
  intros Hone. induction selves as [| self rest IH]; [reflexivity |].
  cbn [map concat length]. rewrite reads_app, Hone, IH. reflexivity.
Qed.

Lemma cycles_driveCalls (request : T -> R * R * R * CoordinateMode)
    (selves : list T) (store : gmap string R) :
  (forall self, driveCalls (events self store) = [request self]) ->
  driveCalls (concat (map (fun self => events self store) selves))
  = map request selves.
Proof.
  intros Hone. induction selves as [| self rest IH]; [reflexivity |].
  cbn [map concat]. rewrite driveCalls_app, Hone, IH. reflexivity.
Qed.

End Cycles.

(** X17: over any number of cycles in a row, with joystick answers that may
    differ from cycle to cycle, either command leaves the preference store
    as it found it, reads the sensitivity once per cycle, and makes one
    request to the drive subsystem per cycle, in order: the inputs of that
    cycle, with the rotation scaled by the sensitivity the store held at the
    start. *)
Theorem execute_cycles (arcade : list ArcadeDrive.t)
    (fieldRelative : list FieldRelativeDrive.t) (w : World) :
  let ka := default 0.2 (prefs w !! kSensitivityKey) in
  let kf := default getFloat_defaultValue (prefs w !! kSensitivityKey) in
  (prefs (snd (cycles ArcadeDrive.execute arcade w)) = prefs w /\
   reads kSensitivityKey (emitted (cycles ArcadeDrive.execute arcade) w)
   = length arcade /\
   driveCalls (emitted (cycles ArcadeDrive.execute arcade) w)
   = map (fun a => (ArcadeDrive.forward a tt, 0, ArcadeDrive.rotation a tt * ka,
                    RobotRelative))
         arcade) /\
  (prefs (snd (cycles FieldRelativeDrive.execute fieldRelative w)) = prefs w /\
   reads kSensitivityKey (emitted (cycles FieldRelativeDrive.execute fieldRelative) w)
   = length fieldRelative /\
   driveCalls (emitted (cycles FieldRelativeDrive.execute fieldRelative) w)
   = map (fun f => (FieldRelativeDrive.forward f tt, FieldRelativeDrive.sideways f tt,
                    FieldRelativeDrive.rotation f tt * kf, FieldRelative))
         fieldRelative).
Proof.
  intros ka kf. split.
  - set (events := fun (a : ArcadeDrive.t) (store : gmap string R) =>
                     [ Polled AxisForward; Polled AxisRotation;
                       PrefGet kSensitivityKey;
                       ArcadeDriveWithFactors
                         (ArcadeDrive.forward a tt) 0
                         (ArcadeDrive.rotation a tt
                          * default 0.2 (store !! kSensitivityKey))
                         RobotRelative ]).
    pose proof (cycles_run ArcadeDrive.execute events
                  ArcadeDrive_execute_run arcade w) as Hrun.
    rewrite (emitted_app _ w _ (f_equal (fun r => trace (snd r)) Hrun)).
    rewrite Hrun. cbn [snd prefs].
    split; [reflexivity | split].
    + apply (cycles_reads events). intros a. reflexivity.
    + apply (cycles_driveCalls events
               (fun a => (ArcadeDrive.forward a tt, 0,
                          ArcadeDrive.rotation a tt * ka, RobotRelative))).
      intros a. reflexivity.
  - set (events := fun (f : FieldRelativeDrive.t) (store : gmap string R) =>
                     [ Polled AxisForward; Polled AxisSideways; Polled AxisRotation;
                       PrefGet kSensitivityKey;
                       ArcadeDriveWithFactors
                         (FieldRelativeDrive.forward f tt)
                         (FieldRelativeDrive.sideways f tt)
                         (FieldRelativeDrive.rotation f tt
                          * default getFloat_defaultValue (store !! kSensitivityKey))
                         FieldRelative ]).
    pose proof (cycles_run FieldRelativeDrive.execute events
                  FieldRelativeDrive_execute_run fieldRelative w) as Hrun.
    rewrite (emitted_app _ w _ (f_equal (fun r => trace (snd r)) Hrun)).
    rewrite Hrun. cbn [snd prefs].
    split; [reflexivity | split].
    + apply (cycles_reads events). intros f. reflexivity.
    + apply (cycles_driveCalls events
               (fun f => (FieldRelativeDrive.forward f tt,
                          FieldRelativeDrive.sideways f tt,
                          FieldRelativeDrive.rotation f tt * kf, FieldRelative))).
      intros f. reflexivity.
Qed.
